(** * Commit-graph ingestion and path-coverage indexing (package gitserver)

    A shallow embedding of [SQLRepo.Clone], its work list [bag],
    [aggregateReachability] and [pathCoverage.TakeIndex], followed by the
    properties of the coordinate assignment that the specification states.

    Conventions of the embedding:
    - a Go [int] is a [Z], 64 bits wide as on the platforms the server runs
      on; the two additions of the source are written with their
      two's-complement wrap-around ([int_add]);
    - a Go [map[int]int] is a [gmap Z Z]; reading a missing key gives the
      zero value ([go_get]); [range] over a map, whose order Go leaves open,
      is [map_fold], and the results are shown below to depend on the
      entries only ([aggregate_parent_lookup], [lowest_fold]);
    - [map[plumbing.Hash]bool], which only ever stores [true], is a [gset];
    - the database and the git repository are reached through interfaces in
      the source, and so they are here. *)

From stdpp Require Import gmap list strings.
From Stdlib Require Import ZArith Lia.

Local Open Scope Z_scope.

(** ** Go integers *)

(** [const maxUint = ^uint(0)], [const maxInt = int(maxUint >> 1)] *)
Definition maxUint : Z := Z.ones 64.
Definition maxInt : Z := Z.shiftr maxUint 1.
Definition minInt : Z := - maxInt - 1.

(** Two's-complement reduction of a mathematical integer to an [int]. *)
Definition wrap (z : Z) : Z := (z - minInt) `mod` (maxUint + 1) + minInt.

(** [a + b] on [int]. *)
Definition int_add (a b : Z) : Z := wrap (a + b).

Definition in_range (z : Z) : Prop := minInt <= z <= maxInt.

(** ** Go maps *)

(** [m[k]] on a [map[int]int]: the zero value when [k] is missing. *)
Definition go_get (m : gmap Z Z) (k : Z) : Z := default 0 (m !! k).

(** ** Data model *)

(** [plumbing.Hash] is [[20]byte]; a hash is read as the 160-bit number its
    bytes spell. [hex.EncodeToString] is injective, so the [ExternalID] of a
    version is identified with the hash it encodes. *)
Abbreviation plumbing_Hash := N (only parsing).

(** The two fields of [object.Commit] that [Clone] reads. *)
Record Commit := mkCommit {
  Hash : plumbing_Hash;
  ParentHashes : list plumbing_Hash;
}.

(** Modelled from the spec: [types.RepoVersionPathCoverage] is declared in
    package [types], which is not among the sources at hand. Its two fields
    are the ones [TakeIndex] fills in, both [int]: the specification's
    [pathColor] and [pathIndex]. *)
Record RepoVersionPathCoverage := mkCoverage {
  PathColor : Z;
  PathIndex : Z;
}.

(** Modelled from the spec: [types.RepoVersion], declared in package [types]
    too, with the fields [Clone] fills in: the specification's
    [repositoryID], [externalID], coordinate and [reachability], a
    [map[int]int] from colour to index. *)
Record RepoVersion := mkRepoVersion {
  RepoID : Z;
  ExternalID : plumbing_Hash;
  PathCoverage : RepoVersionPathCoverage;
  Reachability : gmap Z Z;
}.

Global Instance Commit_eq_dec : EqDecision Commit.
Proof. solve_decision. Defined.
Global Instance RepoVersionPathCoverage_eq_dec : EqDecision RepoVersionPathCoverage.
Proof. solve_decision. Defined.
Global Instance RepoVersion_eq_dec : EqDecision RepoVersion.
Proof. solve_decision. Defined.

(** ** aggregateReachability *)

(** The body of the inner loop: [j := r[c]; if i > j { r[c] = i }]. *)
Definition aggregate_entry (c i : Z) (r : gmap Z Z) : gmap Z Z :=
  if go_get r c <? i then <[c:=i]> r else r.

(** [for c, i := range p.Reachability { ... }] *)
Definition aggregate_parent (r : gmap Z Z) (p : RepoVersion) : gmap Z Z :=
  map_fold aggregate_entry r (Reachability p).

Definition aggregateReachability (parents : list RepoVersion) : gmap Z Z :=
  foldl aggregate_parent ∅ parents.

(** ** pathCoverage.TakeIndex *)

(** [type pathCoverage struct { topIndices map[int]int; highestUsedColor int }] *)
Record pathCoverage := mkPaths {
  topIndices : gmap Z Z;
  highestUsedColor : Z;
}.

Global Instance pathCoverage_eq_dec : EqDecision pathCoverage.
Proof. solve_decision. Defined.

(** The body of the loop over [reachability]. *)
Definition lowest_entry (top : gmap Z Z) (c i : Z) (lowestUsableColor : Z) : Z :=
  if bool_decide (go_get top c = i)
  then (if c <? lowestUsableColor then c else lowestUsableColor)
  else lowestUsableColor.

(** The receiver is mutated in place: the new state is returned next to the
    coordinate. *)
Definition TakeIndex (p : pathCoverage) (reachability : gmap Z Z)
  : RepoVersionPathCoverage * pathCoverage :=
  let lowestUsableColor := map_fold (lowest_entry (topIndices p)) maxInt reachability in
  let lowestUsableColor :=
    if bool_decide (lowestUsableColor = maxInt)
    then int_add (highestUsedColor p) 1
    else lowestUsableColor in
  let index := int_add (go_get (topIndices p) lowestUsableColor) 1 in
  let topIndices' := <[lowestUsableColor := index]> (topIndices p) in
  let highestUsedColor' :=
    if highestUsedColor p <? lowestUsableColor
    then lowestUsableColor else highestUsedColor p in
  ({| PathColor := lowestUsableColor; PathIndex := index |},
   {| topIndices := topIndices'; highestUsedColor := highestUsedColor' |}).

(** ** The collaborators of Clone *)

(** What [Clone] can return. The source builds its two own errors with
    [errors.New] and [errors.Errorf] and hands every other error on as it
    got it. *)
Inductive CloneError :=
| ErrNoRootCommit
    (* errors.New("want at least one root commit") *)
| ErrExpectedToFind (h : plumbing_Hash)
    (* errors.Errorf("expected to find %q in database", hex(h)) *)
| ErrCommitObject (h : plumbing_Hash)
    (* the error of gitRepo.CommitObject(h) *)
| ErrStore (msg : string)
    (* the error of a Lookup or CreateIfNotExists call *).

Global Instance CloneError_eq_dec : EqDecision CloneError.
Proof. solve_decision. Defined.

(** Modelled from the spec: the interface of [r.db.RepoVersions()], declared
    in package [database], which is not among the sources at hand; the two
    methods are taken as [Clone] calls them. [Lookup] yields the store's
    error, or [None] for the [nil] record of a version that is not there;
    [CreateIfNotExists] yields the store after the call and the error, if
    any (the id it also returns is dropped by [Clone]). *)
Class RepoVersionStore (DB : Type) := {
  Lookup : DB -> Z -> plumbing_Hash -> string + option RepoVersion;
  CreateIfNotExists : DB -> RepoVersion -> DB * option string;
}.

(** The cloned repository once [gitRepo.Log] has been obtained: the commits
    the iterator yields, in its order, and [gitRepo.CommitObject]. The steps
    before (clone, branch, reference, log) return their error before any of
    the state below exists. *)
Record GitRepo := mkGitRepo {
  Log : list Commit;
  CommitObject : plumbing_Hash -> option Commit;
}.

(** ** Step 2 of Clone: children and roots *)

(** [children[h]], [nil] when [h] has no entry. *)
Definition children_of (children : gmap N (list N)) (h : plumbing_Hash) : list N :=
  default [] (children !! h).

(** [ch := children[h]; ch = append(ch, c.Hash); children[h] = ch] *)
Definition add_child (child : plumbing_Hash) (children : gmap N (list N))
    (h : plumbing_Hash) : gmap N (list N) :=
  <[h := children_of children h ++ [child]]> children.

(** The callback of [iter.ForEach]. *)
Definition visit_commit (g : gmap N (list N) * list N) (c : Commit)
  : gmap N (list N) * list N :=
  let children := foldl (add_child (Hash c)) g.1 (ParentHashes c) in
  let roots :=
    if decide (length (ParentHashes c) = 0%nat) then g.2 ++ [Hash c] else g.2 in
  (children, roots).

Definition buildGraph (log : list Commit) : gmap N (list N) * list N :=
  foldl visit_commit (∅, []) log.

(** ** The bag *)

(** [type bag struct { stack []*object.Commit }]: the top of the stack is the
    end of the slice. *)
Record bag := mkBag { stack : list Commit }.

Definition notEmpty (b : bag) : bool := bool_decide (0 < length (stack b))%nat.

(** [pop] on an empty bag panics in the source (index out of range); the
    loop never calls it so. *)
Definition pop (b : bag) : option (Commit * bag) :=
  match last (stack b) with
  | Some c => Some (c, mkBag (take (length (stack b) - 1) (stack b)))
  | None => None
  end.

Definition add (b : bag) (c : Commit) : bag := mkBag (stack b ++ [c]).

(** ** Step 3 of Clone: the loop *)

(** One call of [CreateIfNotExists], kept as a ghost record of the run:
    the version passed and the parents it was computed from. *)
Record Finalization := mkFinalization {
  fin_version : RepoVersion;
  fin_parents : list RepoVersion;
}.

(** [for _, r := range roots { c, err := gitRepo.CommitObject(r); ... add }] *)
Fixpoint seedRoots (git : GitRepo) (roots : list plumbing_Hash) (b : bag)
  : CloneError + bag :=
  match roots with
  | [] => inr b
  | r :: roots' =>
    match CommitObject git r with
    | None => inl (ErrCommitObject r)
    | Some c => seedRoots git roots' (add b c)
    end
  end.

(** [chParentsProcessed]: the scan stops at the first parent that is not
    processed. *)
Definition chParentsProcessed (processed : gset N) (phs : list plumbing_Hash) : bool :=
  forallb (fun ph => bool_decide (ph ∈ processed)) phs.

(** [for _, ch := range children[c.Hash] { ... }] *)
Fixpoint addReadyChildren (git : GitRepo) (processed : gset N)
    (chs : list plumbing_Hash) (b : bag) : CloneError + bag :=
  match chs with
  | [] => inr b
  | ch :: chs' =>
    if bool_decide (ch ∈ processed) then addReadyChildren git processed chs' b
    else
      match CommitObject git ch with
      | None => inl (ErrCommitObject ch)
      | Some chCommit =>
        if chParentsProcessed processed (ParentHashes chCommit)
        then addReadyChildren git processed chs' (add b chCommit)
        else addReadyChildren git processed chs' b
      end
  end.

(** How a run ends: [Clone] returns ([nil] or an error), or the fuel of the
    embedding is used up before the loop is done. *)
Inductive Outcome :=
| Returned (err : option CloneError)
| OutOfFuel.

Global Instance Outcome_eq_dec : EqDecision Outcome.
Proof. solve_decision. Defined.

Section Clone.

Context {DB : Type} `{Store : RepoVersionStore DB}.

(** [for _, h := range c.ParentHashes { p, err := Lookup(...); ... }] *)
Fixpoint lookupParents (db : DB) (repoID : Z) (hs : list plumbing_Hash)
    (parents : list RepoVersion) : CloneError + list RepoVersion :=
  match hs with
  | [] => inr parents
  | h :: hs' =>
    match Lookup db repoID h with
    | inl e => inl (ErrStore e)
    | inr None => inl (ErrExpectedToFind h)
    | inr (Some p) => lookupParents db repoID hs' (parents ++ [p])
    end
  end.

(** The variables of the loop. *)
Record LoopState := mkLoopState {
  toBeProcessed : bag;
  processed : gset N;
  paths : pathCoverage;
  db : DB;
  finalized : list Finalization;
}.

(** Lines 98 to 108: the version of commit [c] from its parents. *)
Definition makeVersion (repoID : Z) (c : Commit) (p : pathCoverage)
    (parents : list RepoVersion) : RepoVersion * pathCoverage :=
  let reachability := aggregateReachability parents in
  let '(coverage, p') := TakeIndex p reachability in
  let reachability := <[PathColor coverage := PathIndex coverage]> reachability in
  ({| RepoID := repoID;
      ExternalID := Hash c;
      PathCoverage := coverage;
      Reachability := reachability |}, p').

(** One turn of [for toBeProcessed.notEmpty() { ... }] on a bag that is
    not empty: the state when the turn ends, and the error if the turn
    returned one. *)
Definition loop_body (git : GitRepo) (children : gmap N (list N)) (repoID : Z)
    (st : LoopState) : LoopState * option CloneError :=
  match pop (toBeProcessed st) with
  | None => (st, None)
  | Some (c, b) =>
    match lookupParents (db st) repoID (ParentHashes c) [] with
    | inl e =>
      (mkLoopState b (processed st) (paths st) (db st) (finalized st), Some e)
    | inr parents =>
      let '(v, p') := makeVersion repoID c (paths st) parents in
      let '(db', err) := CreateIfNotExists (db st) v in
      let fin := finalized st ++ [mkFinalization v parents] in
      match err with
      | Some e => (mkLoopState b (processed st) p' db' fin, Some (ErrStore e))
      | None =>
        let processed' := {[Hash c]} ∪ processed st in
        match addReadyChildren git processed' (children_of children (Hash c)) b with
        | inl e => (mkLoopState b processed' p' db' fin, Some e)
        | inr b' => (mkLoopState b' processed' p' db' fin, None)
        end
      end
    end
  end.

(** [for toBeProcessed.notEmpty() { ... }], and [return nil] after it. The
    fuel bounds the number of turns. *)
Fixpoint run_loop (fuel : nat) (git : GitRepo) (children : gmap N (list N))
    (repoID : Z) (st : LoopState) : Outcome * LoopState :=
  match fuel with
  | O => (OutOfFuel, st)
  | S fuel' =>
    if notEmpty (toBeProcessed st) then
      match loop_body git children repoID st with
      | (st', Some e) => (Returned (Some e), st')
      | (st', None) => run_loop fuel' git children repoID st'
      end
    else (Returned None, st)
  end.

(** [processed := map[plumbing.Hash]bool{}] and
    [paths := pathCoverage{topIndices: map[int]int{}}] *)
Definition initialState (b : bag) (store : DB) : LoopState :=
  {| toBeProcessed := b;
     processed := ∅;
     paths := {| topIndices := ∅; highestUsedColor := 0 |};
     db := store;
     finalized := [] |}.

(** [Clone] from the commit log on: what it returns, the store it leaves
    and the calls of [CreateIfNotExists] it made. *)
Definition Clone (fuel : nat) (git : GitRepo) (repoID : Z) (store : DB)
  : Outcome * DB * list Finalization :=
  let '(children, roots) := buildGraph (Log git) in
  if decide (length roots = 0%nat) then
    (Returned (Some ErrNoRootCommit), store, [])
  else
    match seedRoots git roots (mkBag []) with
    | inl e => (Returned (Some e), store, [])
    | inr b =>
      let '(out, st) := run_loop fuel git children repoID (initialState b store) in
      (out, db st, finalized st)
    end.

End Clone.

Arguments LoopState : clear implicits.
Arguments makeVersion : simpl never.
Arguments TakeIndex : simpl never.

(** ** The version store of the specification *)

(** Modelled from the spec: the repository's version store
    ([database.RepoVersionStore], reached through [r.db.RepoVersions()]) is
    not part of the sources at hand. The specification gives its contract:
    [lookup(repositoryID, externalID) -> RepoVersion | not-found], and
    [createIfNotExists(RepoVersion)], which is safe to call twice with the
    same [(repositoryID, externalID)] without creating a duplicate or
    erring. The store is a table of rows in insertion order. *)
Definition has_key (repoID : Z) (h : plumbing_Hash) (v : RepoVersion) : bool :=
  bool_decide (RepoID v = repoID ∧ ExternalID v = h).

(** Modelled from the spec: [lookup(repositoryID, externalID)], the row with
    the key or not-found. *)
Definition table_lookup (rows : list RepoVersion) (repoID : Z) (h : plumbing_Hash)
  : option RepoVersion :=
  find (has_key repoID h) rows.

(** Modelled from the spec: [createIfNotExists(RepoVersion)], which adds the
    row when no row has its key and changes nothing otherwise. *)
Definition table_create (rows : list RepoVersion) (v : RepoVersion)
  : list RepoVersion :=
  match table_lookup rows (RepoID v) (ExternalID v) with
  | Some _ => rows
  | None => rows ++ [v]
  end.

(** Modelled from the spec: the version store as the table above; neither
    operation errs. *)
Global Instance TableStore : RepoVersionStore (list RepoVersion) := {
  Lookup rows repoID h := inr (table_lookup rows repoID h);
  CreateIfNotExists rows v := (table_create rows v, None);
}.

(** The git repository whose objects are the commits of its log:
    [CommitObject] finds the commit with the hash, and fails when there is
    none. *)
Definition repo_of_log (log : list Commit) : GitRepo :=
  {| Log := log;
     CommitObject h := find (fun c => bool_decide (Hash c = h)) log |}.

(** * The vocabulary of the properties *)

(** ** Vocabulary: aggregated maps and the allocator *)

(** What one parent does to the entry of one colour: [o] is the entry so
    far, [oi] the parent's. *)
Definition merge_entry (o oi : option Z) : option Z :=
  match oi with
  | Some i => if default 0 o <? i then Some i else o
  | None => o
  end.

(** Every value a parent carries is an index, and indices start at 1. *)
Definition values_from_1 (parents : list RepoVersion) : Prop :=
  ∀ p c i, p ∈ parents -> Reachability p !! c = Some i -> 1 <= i.

(** Colour [c] can be extended: it is an entry of the aggregated map and
    its value is the top index of [c]. *)
Definition extendable (p : pathCoverage) (aggregated : gmap Z Z) (c : Z) : Prop :=
  aggregated !! c = Some (go_get (topIndices p) c).

(** The allocator state after [n] allocations at most: [highestUsedColor]
    is the largest colour handed out, the colours with a top index are
    among 1 .. [highestUsedColor], and no top index is above [n]. *)
Definition paths_bounded (n : Z) (p : pathCoverage) : Prop :=
  0 <= highestUsedColor p <= n ∧
  ∀ c i, topIndices p !! c = Some i ->
         1 <= c <= highestUsedColor p ∧ 1 <= i <= n.

(** A state that still has room below [maxInt]. *)
Definition paths_wf (p : pathCoverage) : Prop := paths_bounded (maxInt - 1) p.

(** ** Vocabulary: the graph and the runs of the loop *)

(** A root: [len(c.ParentHashes) == 0]. *)
Definition is_root (c : Commit) : Prop := length (ParentHashes c) = 0%nat.

Global Instance is_root_dec c : Decision (is_root c).
Proof. unfold is_root. apply _. Defined.

(** The entries that commit [c] adds to the children of [h]: its hash, once
    for each time [h] stands among its parents. *)
Definition child_slots (h : N) (c : Commit) : list N :=
  (fun _ => Hash c) <$> filter (fun x => x = h) (ParentHashes c).

(** [turns git children repoID n st st']: the loop makes [n] turns from
    [st] without returning and stands at [st']. *)
Inductive turns {DB : Type} `{Store : RepoVersionStore DB} (git : GitRepo)
    (children : gmap N (list N)) (repoID : Z)
  : nat -> LoopState DB -> LoopState DB -> Prop :=
| turns_O st : turns git children repoID 0 st st
| turns_S n st st' st'' :
    notEmpty (toBeProcessed st) = true ->
    loop_body git children repoID st = (st', None) ->
    turns git children repoID n st' st'' ->
    turns git children repoID (S n) st st''.

(** The loop of [Clone] stands at [st] after [n] turns that did not
    return. *)
Definition Clone_stands_at {DB : Type} `{RepoVersionStore DB}
    (git : GitRepo) (repoID : Z) (store : DB) (n : nat) (st : LoopState DB) : Prop :=
  ∃ b, (buildGraph (Log git)).2 ≠ [] ∧
       seedRoots git (buildGraph (Log git)).2 (mkBag []) = inr b ∧
       turns git (buildGraph (Log git)).1 repoID n (initialState b store) st.

(** A commit reaches itself: the reachability map has the commit's own
    index at its own colour. *)
Definition self_reachable (v : RepoVersion) : Prop :=
  Reachability v !! PathColor (PathCoverage v) = Some (PathIndex (PathCoverage v)).


(** A store that keeps nothing: every lookup finds no version and every
    creation is lost. It stands for a corrupted store. *)
Definition ForgetfulStore : RepoVersionStore unit :=
  {| Lookup _ _ _ := inr None; CreateIfNotExists _ _ := (tt, None) |}.

(** ** Vocabulary: the table store and runs from scratch *)

(** The key of a row: [(repositoryID, externalID)]. *)
Definition table_key (v : RepoVersion) : Z * N := (RepoID v, ExternalID v).

(** The table holds a version under the key. *)
Definition table_has (rows : list RepoVersion) (repoID : Z) (h : N) : Prop :=
  is_Some (table_lookup rows repoID h).



(** The allocator state the specification wants a resumed run to start
    from: the highest index per colour over the persisted versions, and the
    highest colour among them. The source has no such step; the definition
    follows the specification's words and serves the comparison only. *)
Definition reconstructed_paths (rows : list RepoVersion) : pathCoverage :=
  {| topIndices :=
       foldl (fun top v =>
                let c := PathColor (PathCoverage v) in
                <[c := Z.max (go_get top c) (PathIndex (PathCoverage v))]> top)
             ∅ rows;
     highestUsedColor :=
       foldl (fun hi v => Z.max hi (PathColor (PathCoverage v))) 0 rows |}.

(** ** Scenario: the diamond *)

(** Root R, its children A and B, and the merge M of A and B. *)
Definition diamond_R : Commit := mkCommit 1 [].
Definition diamond_A : Commit := mkCommit 2 [1%N].
Definition diamond_B : Commit := mkCommit 3 [1%N].
Definition diamond_M : Commit := mkCommit 4 [2%N; 3%N].

(** The log of the diamond, newest commit first. *)
Definition diamond_log : list Commit :=
  [diamond_M; diamond_B; diamond_A; diamond_R].

(** The log yields [x] at an earlier place than [y]. *)
Definition beforeb (x y : Commit) (log : list Commit) : bool :=
  match list_find (fun c => c = x) log, list_find (fun c => c = y) log with
  | Some (i, _), Some (j, _) => bool_decide (i < j)%nat
  | _, _ => false
  end.

(** The logs of the diamond that make the loop take R, A, B, M in this
    order: A is popped before B when the log yields B before A, whatever the
    places of R and M. *)
Definition diamond_logs : list (list Commit) :=
  filter (fun log => beforeb diamond_B diamond_A log = true)
         (permutations [diamond_R; diamond_A; diamond_B; diamond_M]).

(** The versions of the diamond, in the order R, A, B, M. *)
Definition diamond_versions : list RepoVersion :=
  [mkRepoVersion 7 1 (mkCoverage 1 1) {[1 := 1]};
   mkRepoVersion 7 2 (mkCoverage 1 2) {[1 := 2]};
   mkRepoVersion 7 3 (mkCoverage 2 1) {[1 := 1; 2 := 1]};
   mkRepoVersion 7 4 (mkCoverage 1 3) {[1 := 3; 2 := 1]}].

(** The calls of [CreateIfNotExists] on the diamond: each version with the
    parents it was computed from. *)
Definition diamond_calls : list Finalization :=
  [mkFinalization (mkRepoVersion 7 1 (mkCoverage 1 1) {[1 := 1]}) [];
   mkFinalization (mkRepoVersion 7 2 (mkCoverage 1 2) {[1 := 2]})
     [mkRepoVersion 7 1 (mkCoverage 1 1) {[1 := 1]}];
   mkFinalization (mkRepoVersion 7 3 (mkCoverage 2 1) {[1 := 1; 2 := 1]})
     [mkRepoVersion 7 1 (mkCoverage 1 1) {[1 := 1]}];
   mkFinalization (mkRepoVersion 7 4 (mkCoverage 1 3) {[1 := 3; 2 := 1]})
     [mkRepoVersion 7 2 (mkCoverage 1 2) {[1 := 2]};
      mkRepoVersion 7 3 (mkCoverage 2 1) {[1 := 1; 2 := 1]}]].

(** The versions as the scenario of the specification lists them: B with
    the reachability map [{2:1}]. *)
Definition diamond_versions_spec : list RepoVersion :=
  [mkRepoVersion 7 1 (mkCoverage 1 1) {[1 := 1]};
   mkRepoVersion 7 2 (mkCoverage 1 2) {[1 := 2]};
   mkRepoVersion 7 3 (mkCoverage 2 1) {[2 := 1]};
   mkRepoVersion 7 4 (mkCoverage 1 3) {[1 := 3; 2 := 1]}].

(** ** Scenario: two branches of one repository *)

(** First branch: root 1, its children 2, 3 and 4, commit 5 on top of 4,
    and the merge 6 of 2, 3 and 5. *)
Definition first_branch_log : list Commit :=
  [mkCommit 6 [2; 3; 5]%N; mkCommit 5 [4%N]; mkCommit 4 [1%N];
   mkCommit 3 [1%N]; mkCommit 2 [1%N]; mkCommit 1 []].

(** Second branch: commit 7 on top of 5, with its ancestors 5, 4 and 1. *)
Definition second_branch_log : list Commit :=
  [mkCommit 7 [5%N]; mkCommit 5 [4%N]; mkCommit 4 [1%N]; mkCommit 1 []].

(** ** Scenario: linear histories *)

(** The commits of a linear history with the hashes [hs], oldest first:
    the first has the parents given, every other one has the commit before
    it as its only parent. *)
Fixpoint linear_from (parents : list N) (hs : list N) : list Commit :=
  match hs with
  | [] => []
  | h :: hs' => mkCommit h parents :: linear_from [h] hs'
  end.

(** The first commit of a history is a root. *)
Definition linear_history (hs : list N) : list Commit := linear_from [] hs.

(** The version of the commit at place [i] (from 0) of a linear history:
    colour 1, index [i + 1], reaching index [i + 1] on colour 1. *)
Definition chain_version (repoID : Z) (i : nat) (h : N) : RepoVersion :=
  mkRepoVersion repoID h (mkCoverage 1 (Z.of_nat i + 1)) {[1 := Z.of_nat i + 1]}.

(** The versions of a whole linear history, in its order. *)
Definition chain_versions (repoID : Z) (hs : list N) : list RepoVersion :=
  imap (chain_version repoID) hs.

(** The parent hashes of the commit that follows the commits [pre]. *)
Definition chain_parent (pre : list N) : list N :=
  match last pre with Some p => [p] | None => [] end.

(** The stored versions of those parents. *)
Definition chain_parent_versions (repoID : Z) (pre : list N) : list RepoVersion :=
  match last pre with
  | Some p => [chain_version repoID (length pre - 1) p]
  | None => []
  end.

(** The allocator after [k] commits of the chain. *)
Definition chain_paths (k : nat) : pathCoverage :=
  match k with
  | O => mkPaths ∅ 0
  | S _ => mkPaths {[1 := Z.of_nat k]} 1
  end.

(** The calls of [CreateIfNotExists] for the commits [hs] that follow the
    commits [pre]. *)
Fixpoint chain_calls (repoID : Z) (pre hs : list N) : list Finalization :=
  match hs with
  | [] => []
  | h :: hs' =>
    mkFinalization (chain_version repoID (length pre) h)
                   (chain_parent_versions repoID pre)
    :: chain_calls repoID (pre ++ [h]) hs'
  end.

(** The state of the loop over a linear history when the commits [pre] are
    done and the commits [todo] are still to come. *)
Definition chain_after (repoID : Z) (store : list RepoVersion)
    (pre todo : list N) (fins : list Finalization)
  : LoopState (list RepoVersion) :=
  {| toBeProcessed :=
       mkBag (match todo with
              | [] => []
              | h :: _ => [mkCommit h (chain_parent pre)]
              end);
     processed := list_to_set pre;
     paths := chain_paths (length pre);
     db := store ++ chain_versions repoID pre;
     finalized := fins |}.

(** ** Vocabulary: aggregated maps as a pointwise maximum *)

(** The larger of two entries of one colour; an entry that is there wins
    over one that is not. *)
Definition max_entries (m1 m2 : gmap Z Z) : gmap Z Z :=
  union_with (fun i j => Some (Z.max i j)) m1 m2.

(** The entries of a reachability map that [aggregateReachability] can
    take over: those above the zero value. *)
Definition positive_entries (m : gmap Z Z) : gmap Z Z :=
  filter (fun ci => 0 < ci.2) m.

(** ** Vocabulary: stores that fail *)

(** A store that cannot be read: creations go through, lookups fail. *)
Definition WriteOnlyStore : RepoVersionStore unit :=
  {| Lookup _ _ _ := inl "permission denied"%string;
     CreateIfNotExists _ _ := (tt, None) |}.

(** A store that cannot be written: lookups find nothing, creations
    fail. *)
Definition ReadOnlyStore : RepoVersionStore unit :=
  {| Lookup _ _ _ := inr None;
     CreateIfNotExists _ _ := (tt, Some "read-only transaction"%string) |}.

(** ** Vocabulary: the coordinates of a run *)

(** The coordinate of the version of a call. *)
Definition coordinate (f : Finalization) : Z * Z :=
  (PathColor (PathCoverage (fin_version f)), PathIndex (PathCoverage (fin_version f))).

(** The calls made and the allocator state agree: every coordinate was
    handed out once, and the coordinates handed out are the places 1 up to
    the top index on every colour from 1 to [highestUsedColor], none of
    which is empty. *)
Definition alloc_inv (p : pathCoverage) (calls : list Finalization) : Prop :=
  NoDup (coordinate <$> calls) ∧
  (∀ c i, (c, i) ∈ coordinate <$> calls ↔
          1 <= c <= highestUsedColor p ∧ 1 <= i <= go_get (topIndices p) c) ∧
  ∀ c, 1 <= c <= highestUsedColor p -> 1 <= go_get (topIndices p) c.

(** ** Vocabulary: the schedule of the loop *)

(** The commits that [for _, ch := range children[c.Hash]] adds to the bag
    when no [CommitObject] call fails, in the order it adds them. *)
Fixpoint ready_children (git : GitRepo) (processed : gset N)
    (chs : list plumbing_Hash) : list Commit :=
  match chs with
  | [] => []
  | ch :: chs' =>
    if bool_decide (ch ∈ processed) then ready_children git processed chs'
    else
      match CommitObject git ch with
      | Some chCommit =>
        if chParentsProcessed processed (ParentHashes chCommit)
        then chCommit :: ready_children git processed chs'
        else ready_children git processed chs'
      | None => ready_children git processed chs'
      end
  end.

(** The hashes of the commits passed to [CreateIfNotExists], in the order
    of the calls. *)
Definition persisted_order (calls : list Finalization) : list N :=
  (fun f => ExternalID (fin_version f)) <$> calls.

(** A log of distinct commits: no hash is yielded twice, and no commit
    names a parent twice. *)
Definition distinct_log (log : list Commit) : Prop :=
  NoDup (Hash <$> log) ∧ ∀ c, c ∈ log -> NoDup (ParentHashes c).

(** The repository returns, for the hash of a commit of its log, that
    commit. *)
Definition log_objects (git : GitRepo) : Prop :=
  ∀ c, c ∈ Log git -> CommitObject git (Hash c) = Some c.

(** The log holds the parents of its commits. *)
Definition closed_log (log : list Commit) : Prop :=
  ∀ c ph, c ∈ log -> ph ∈ ParentHashes c -> ph ∈ Hash <$> log.

(** The history has no cycle: some rank puts every parent below its
    child. *)
Definition ranked_log (rank : N -> nat) (log : list Commit) : Prop :=
  ∀ c ph, c ∈ log -> ph ∈ ParentHashes c -> (rank ph < rank (Hash c))%nat.

(** In [order], every parent of a commit of the log stands before the
    commit. *)
Definition parents_first (log : list Commit) (order : list N) : Prop :=
  ∀ i c ph, c ∈ log -> order !! i = Some (Hash c) -> ph ∈ ParentHashes c ->
            ∃ j, (j < i)%nat ∧ order !! j = Some ph.

(** What the calls of a run keep to: commits of the log, each once, parents
    first. *)
Definition schedule_ok (log : list Commit) (order : list N) : Prop :=
  NoDup order ∧ (∀ h, h ∈ order -> h ∈ Hash <$> log) ∧ parents_first log order.

(** What holds between the turns of a run over a log of distinct commits:
    the bag holds commits of the log, each once, none of them processed and
    each with all its parents processed; it holds every such commit; and
    the processed commits are the ones of the calls made. *)
Definition sched_inv {DB : Type} (log : list Commit) (st : LoopState DB) : Prop :=
  (∀ c, c ∈ stack (toBeProcessed st) -> c ∈ log) ∧
  NoDup (Hash <$> stack (toBeProcessed st)) ∧
  (∀ c, c ∈ stack (toBeProcessed st) -> Hash c ∉ processed st) ∧
  (∀ c ph, c ∈ stack (toBeProcessed st) -> ph ∈ ParentHashes c ->
           ph ∈ processed st) ∧
  (∀ c, c ∈ log -> Hash c ∉ processed st ->
        (∀ ph, ph ∈ ParentHashes c -> ph ∈ processed st) ->
        c ∈ stack (toBeProcessed st)) ∧
  (∀ h, h ∈ persisted_order (finalized st) ↔ h ∈ processed st) ∧
  schedule_ok log (persisted_order (finalized st)).

Global Instance distinct_log_dec log : Decision (distinct_log log).
Proof.
  refine (cast_if (decide (NoDup (Hash <$> log) ∧
                           Forall (fun c => NoDup (ParentHashes c)) log)));
    unfold distinct_log; rewrite Forall_forall in *; tauto.
Defined.

Global Instance log_objects_dec git : Decision (log_objects git).
Proof.
  refine (cast_if (decide (Forall (fun c => CommitObject git (Hash c) = Some c)
                                  (Log git))));
    unfold log_objects; by rewrite Forall_forall in *.
Defined.

Global Instance closed_log_dec log : Decision (closed_log log).
Proof.
  refine (cast_if (decide (Forall (fun c => Forall (fun ph => ph ∈ Hash <$> log)
                                                   (ParentHashes c)) log)));
    unfold closed_log; rewrite Forall_forall in *.
  - intros c ph Hc. revert ph. apply Forall_forall. auto.
  - intros Hcl. apply n. intros c Hc. apply Forall_forall. intros ph. by apply Hcl.
Defined.

Global Instance ranked_log_dec rank log : Decision (ranked_log rank log).
Proof.
  refine (cast_if (decide (Forall (fun c => Forall (fun ph => (rank ph < rank (Hash c))%nat)
                                                   (ParentHashes c)) log)));
    unfold ranked_log; rewrite Forall_forall in *.
  - intros c ph Hc. revert ph. apply Forall_forall. auto.
  - intros Hcl. apply n. intros c Hc. apply Forall_forall. intros ph. by apply Hcl.
Defined.

(** * Properties *)

(** ** Go integers and maps *)

Lemma maxInt_val : maxInt = 9223372036854775807.
Proof. reflexivity. Qed.

Lemma minInt_val : minInt = -9223372036854775808.
Proof. reflexivity. Qed.

Lemma wrap_id z : in_range z -> wrap z = z.
Proof.
  unfold in_range, wrap. rewrite minInt_val, maxInt_val.
  change (maxUint + 1) with 18446744073709551616.
  intros Hz. rewrite Z.mod_small by lia. lia.
Qed.

Lemma int_add_small a b :
  minInt <= a + b <= maxInt -> int_add a b = a + b.
Proof. intros H. unfold int_add. by apply wrap_id. Qed.

(** The addition wraps: the successor of [maxInt] is [minInt]. *)
Lemma int_add_maxInt_1 : int_add maxInt 1 = minInt.
Proof. reflexivity. Qed.

Global Opaque maxUint maxInt minInt.

Lemma go_get_insert_eq (m : gmap Z Z) k v : go_get (<[k:=v]> m) k = v.
Proof. unfold go_get. by rewrite lookup_insert_eq. Qed.

Lemma go_get_insert_ne (m : gmap Z Z) k k' v :
  k ≠ k' -> go_get (<[k:=v]> m) k' = go_get m k'.
Proof. intros. unfold go_get. by rewrite lookup_insert_ne. Qed.

Lemma go_get_Some (m : gmap Z Z) k v : m !! k = Some v -> go_get m k = v.
Proof. unfold go_get. by intros ->. Qed.

Lemma go_get_None (m : gmap Z Z) k : m !! k = None -> go_get m k = 0.
Proof. unfold go_get. by intros ->. Qed.

(** ** aggregateReachability, colour by colour *)

Lemma aggregate_entry_lookup c i r c' :
  aggregate_entry c i r !! c' =
  if decide (c = c') then merge_entry (r !! c) (Some i) else r !! c'.
Proof.
  unfold aggregate_entry, merge_entry, go_get.
  destruct (default 0 (r !! c) <? i); case_decide; subst;
    rewrite ?lookup_insert_eq, ?lookup_insert_ne; done.
Qed.

Lemma aggregate_parent_lookup r p c :
  aggregate_parent r p !! c = merge_entry (r !! c) (Reachability p !! c).
Proof.
  unfold aggregate_parent. revert c.
  apply (map_fold_weak_ind
           (fun r' m => ∀ c, r' !! c = merge_entry (r !! c) (m !! c))).
  - intros c. by rewrite lookup_empty.
  - intros k x m r' Hk IH c. rewrite aggregate_entry_lookup.
    case_decide; subst.
    + rewrite lookup_insert_eq, IH, Hk. done.
    + rewrite lookup_insert_ne by done. apply IH.
Qed.

Lemma foldl_aggregate_parent_lookup parents r c :
  foldl aggregate_parent r parents !! c =
  foldl merge_entry (r !! c) ((fun p => Reachability p !! c) <$> parents).
Proof.
  revert r. induction parents as [|p ps IH]; intros r; simpl; [done|].
  by rewrite IH, aggregate_parent_lookup.
Qed.

Lemma aggregateReachability_lookup parents c :
  aggregateReachability parents !! c =
  foldl merge_entry None ((fun p => Reachability p !! c) <$> parents).
Proof.
  unfold aggregateReachability.
  by rewrite foldl_aggregate_parent_lookup, lookup_empty.
Qed.

Lemma merge_entry_comm o a b :
  merge_entry (merge_entry o a) b = merge_entry (merge_entry o b) a.
Proof.
  destruct a as [a|], b as [b|]; simpl; try done.
  destruct (Z.ltb_spec (default 0 o) a), (Z.ltb_spec (default 0 o) b); simpl;
    repeat match goal with
           | |- context [?x <? ?y] => destruct (Z.ltb_spec x y)
           end; try done; try lia.
  f_equal. lia.
Qed.

Lemma foldl_merge_entry_perm vals vals' o :
  vals ≡ₚ vals' -> foldl merge_entry o vals = foldl merge_entry o vals'.
Proof.
  intros Hp. revert o.
  induction Hp as [|x l l' _ IH|x y l|l l' l'' _ IH1 _ IH2]; intros o; simpl.
  - done.
  - apply IH.
  - by rewrite merge_entry_comm.
  - by rewrite IH1, IH2.
Qed.

(** The entry kept is never below 1 once the fold starts from an entry
    that is absent or at least 1. *)
Lemma foldl_merge_entry_pos vals o m :
  (∀ v, o = Some v -> 1 <= v) ->
  foldl merge_entry o vals = Some m -> 1 <= m.
Proof.
  revert o. induction vals as [|oi vals IH]; intros o Ho; simpl.
  - intros ->. by apply Ho.
  - apply IH. intros v. destruct oi as [i|]; simpl; [|by apply Ho].
    destruct (Z.ltb_spec (default 0 o) i) as [Hlt|Hge]; [|by apply Ho].
    intros [= <-]. destruct o as [v'|]; simpl in Hlt; [|lia].
    specialize (Ho v' eq_refl). lia.
Qed.

(** With values from 1 on, the fold is the maximum of the entries met. *)
Lemma foldl_merge_entry_max vals o :
  (∀ v, o = Some v -> 1 <= v) ->
  (∀ i, Some i ∈ vals -> 1 <= i) ->
  match foldl merge_entry o vals with
  | None => o = None ∧ ∀ i, Some i ∉ vals
  | Some m =>
    (o = Some m ∨ Some m ∈ vals) ∧
    (∀ v, o = Some v -> v <= m) ∧ (∀ i, Some i ∈ vals -> i <= m)
  end.
Proof.
  revert o. induction vals as [|oi vals IH]; intros o Ho Hvals; simpl.
  - destruct o as [v|].
    + split; [by left|]. split; [by intros ? [= ->]|]. by intros i ?%elem_of_nil.
    + split; [done|]. by intros i ?%elem_of_nil.
  - assert (Hstep : ∀ v, merge_entry o oi = Some v -> 1 <= v).
    { intros v. destruct oi as [i|]; simpl; [|by apply Ho].
      destruct (Z.ltb_spec (default 0 o) i); [|by apply Ho].
      intros [= <-]. apply Hvals. left. }
    specialize (IH (merge_entry o oi) Hstep).
    assert (Hvals' : ∀ i, Some i ∈ vals -> 1 <= i).
    { intros i Hi. apply Hvals. by right. }
    specialize (IH Hvals').
    destruct (foldl merge_entry (merge_entry o oi) vals) as [m|].
    + destruct IH as (Hin & Hub1 & Hub2). split; [|split].
      * destruct Hin as [Hin|Hin]; [|right; by right].
        destruct oi as [i|]; simpl in Hin; [|by left].
        destruct (Z.ltb_spec (default 0 o) i); [|by left].
        right. injection Hin as ->. left.
      * intros v ->. destruct oi as [i|]; simpl in Hub1; [|by apply Hub1].
        simpl in Hub1. destruct (Z.ltb_spec v i); [|by apply Hub1].
        specialize (Hub1 i eq_refl). lia.
      * intros i [[= <-]|Hi]%elem_of_cons; [|by apply Hub2].
        simpl in Hub1. destruct (Z.ltb_spec (default 0 o) i) as [Hlt|Hge].
        -- by apply Hub1.
        -- destruct o as [v|]; simpl in Hge.
           ++ specialize (Hub1 v eq_refl). lia.
           ++ assert (1 <= i) by (apply Hvals; left). lia.
    + destruct IH as (Hnone & Hnot). destruct oi as [i|]; simpl in Hnone.
      * destruct (Z.ltb_spec (default 0 o) i) as [Hlt|Hge]; [done|].
        subst o. simpl in Hge.
        assert (1 <= i) by (apply Hvals; left). lia.
      * split; [done|]. intros i [[=]|Hi]%elem_of_cons. by apply (Hnot i).
Qed.

Lemma aggregateReachability_perm parents parents' :
  parents ≡ₚ parents' ->
  aggregateReachability parents = aggregateReachability parents'.
Proof.
  intros Hp. apply map_eq. intros c. rewrite !aggregateReachability_lookup.
  apply foldl_merge_entry_perm. by apply fmap_Permutation.
Qed.

(** No entry of an aggregated map is below 1, whatever the parents hold. *)
Lemma aggregateReachability_pos parents c m :
  aggregateReachability parents !! c = Some m -> 1 <= m.
Proof.
  rewrite aggregateReachability_lookup. by apply foldl_merge_entry_pos.
Qed.

(** With values from 1 on, the entry of a colour is the largest value a
    parent carries for it, and there is none when no parent carries it. *)
Lemma aggregateReachability_max parents c :
  values_from_1 parents ->
  match aggregateReachability parents !! c with
  | None => ∀ p, p ∈ parents -> Reachability p !! c = None
  | Some m =>
    (∃ p, p ∈ parents ∧ Reachability p !! c = Some m) ∧
    (∀ p i, p ∈ parents -> Reachability p !! c = Some i -> i <= m)
  end.
Proof.
  intros Hval. rewrite aggregateReachability_lookup.
  assert (Hvals : ∀ i, Some i ∈ (fun p => Reachability p !! c) <$> parents ->
                       1 <= i).
  { intros i (p & Hi & Hp)%list_elem_of_fmap. by eapply Hval. }
  assert (Hnone : ∀ v, @None Z = Some v -> 1 <= v) by done.
  pose proof (foldl_merge_entry_max _ None Hnone Hvals) as H.
  destruct (foldl merge_entry None _) as [m|].
  - destruct H as (Hin & _ & Hub). destruct Hin as [Hin|Hin]; [done|].
    apply list_elem_of_fmap in Hin as (p & Hi & Hp).
    split; [by exists p|].
    intros q i Hq Hqi. apply Hub, list_elem_of_fmap. by exists q.
  - destruct H as (_ & Hnot).
    intros p Hp. destruct (Reachability p !! c) as [i|] eqn:Hi; [|done].
    exfalso. apply (Hnot i), list_elem_of_fmap. by exists p.
Qed.

(** C10. Permuting the parent list does not change the result of
    [aggregateReachability]. When every value the parents carry is at least
    1, the result is the pointwise maximum of the parents' reachability
    maps: a colour that no parent carries has no entry; a colour has the
    entry [m] exactly when some parent carries it with [m] and no parent
    carries it with more; no entry is zero, and so a colour whose top index
    is still zero (an unused colour) is not extendable. *)
Theorem aggregateReachability_pointwise_max (parents : list RepoVersion) :
  (∀ parents', parents ≡ₚ parents' ->
     aggregateReachability parents' = aggregateReachability parents) ∧
  (values_from_1 parents ->
     (∀ c, aggregateReachability parents !! c = None ↔
           ∀ p, p ∈ parents -> Reachability p !! c = None) ∧
     (∀ c m, aggregateReachability parents !! c = Some m ↔
             (∃ p, p ∈ parents ∧ Reachability p !! c = Some m) ∧
             (∀ p i, p ∈ parents -> Reachability p !! c = Some i -> i <= m)) ∧
     (∀ c m, aggregateReachability parents !! c = Some m -> m ≠ 0) ∧
     (∀ p c, go_get (topIndices p) c = 0 ->
             ¬ extendable p (aggregateReachability parents) c)).
Proof.
  split.
  { intros parents' Hp. symmetry. by apply aggregateReachability_perm. }
  intros Hval.
  pose proof (fun c => aggregateReachability_max parents c Hval) as Hmax.
  split; [|split; [|split]].
  - intros c. specialize (Hmax c).
    destruct (aggregateReachability parents !! c) as [m|]; [|done].
    split; [done|]. intros Hnone. destruct Hmax as ((p & Hp & Hpc) & _).
    rewrite (Hnone p Hp) in Hpc. done.
  - intros c m. specialize (Hmax c).
    destruct (aggregateReachability parents !! c) as [m'|].
    + split; [by intros [= ->]|].
      intros ((p & Hp & Hpc) & Hub). destruct Hmax as ((q & Hq & Hqc) & Hub').
      f_equal. specialize (Hub q m' Hq Hqc). specialize (Hub' p m Hp Hpc). lia.
    + split; [done|]. intros ((p & Hp & Hpc) & _).
      rewrite (Hmax p Hp) in Hpc. done.
  - intros c m Hm%aggregateReachability_pos. lia.
  - intros p c Hz Hext. unfold extendable in Hext. rewrite Hz in Hext.
    apply aggregateReachability_pos in Hext. lia.
Qed.

(** The statement holds of the two parents of a merge. *)
Lemma aggregateReachability_pointwise_max_witness :
  let parents :=
    [mkRepoVersion 7 2 (mkCoverage 1 2) {[1 := 2]};
     mkRepoVersion 7 3 (mkCoverage 2 1) {[1 := 1; 2 := 1]}] in
  values_from_1 parents ∧
  aggregateReachability parents !! 1 = Some 2 ∧
  ∀ c m, aggregateReachability parents !! c = Some m -> m ≠ 0.
Proof.
  intros parents.
  assert (Hval : values_from_1 parents).
  { intros p c i Hp Hi. unfold parents in Hp.
    apply elem_of_cons in Hp as [->|Hp].
    - simpl in Hi. apply lookup_singleton_Some in Hi as [_ <-]. lia.
    - apply elem_of_cons in Hp as [->|Hp]; [|by apply elem_of_nil in Hp].
      simpl in Hi. apply lookup_insert_Some in Hi as [[_ <-]|[_ Hi]]; [lia|].
      apply lookup_singleton_Some in Hi as [_ <-]. lia. }
  split; [exact Hval|]. split; [by vm_compute|].
  exact (proj1 (proj2 (proj2
           (proj2 (aggregateReachability_pointwise_max parents) Hval)))).
Defined.

(** Without the condition on the values the result is not the pointwise
    maximum: a parent that carries colour 5 with the value 0, or with a
    negative value, leaves no entry for colour 5, since [i > j] compares
    against the zero value of the missing key. The largest value carried
    for colour 5 is 0, and the result has no entry for it. *)
Lemma aggregateReachability_dropped_value_counterexample :
  let p := mkRepoVersion 7 1 (mkCoverage 1 1) {[1 := 1; 5 := 0]} in
  let q := mkRepoVersion 7 2 (mkCoverage 1 2) {[1 := 2; 5 := -3]} in
  Reachability p !! 5 = Some 0 ∧ Reachability q !! 5 = Some (-3) ∧
  aggregateReachability [p] !! 5 = None ∧
  aggregateReachability [q] !! 5 = None ∧
  aggregateReachability [p; q] = {[1 := 2]} ∧
  ¬ (∀ c m, aggregateReachability [p] !! c = Some m ↔
            (∃ r, r ∈ [p] ∧ Reachability r !! c = Some m) ∧
            (∀ r i, r ∈ [p] -> Reachability r !! c = Some i -> i <= m)).
Proof.
  intros p q.
  assert (Hnone : aggregateReachability [p] !! 5 = None) by (by vm_compute).
  split; [by vm_compute|]. split; [by vm_compute|]. split; [exact Hnone|].
  split; [by vm_compute|]. split; [by vm_compute|].
  intros Hmax. destruct (Hmax 5 0) as [_ Hback].
  rewrite Hback in Hnone; [done|]. split.
  - exists p. split; [by left|by vm_compute].
  - intros r i Hr Hi. apply list_elem_of_singleton in Hr as ->.
    assert (Hp : Reachability p !! 5 = Some 0) by (by vm_compute).
    rewrite Hp in Hi. injection Hi as <-. lia.
Qed.

(** ** pathCoverage.TakeIndex *)

(** The loop of [TakeIndex]: the lowest extendable colour below [maxInt],
    and [maxInt] when there is none. *)
Lemma lowest_fold top (reachability : gmap Z Z) :
  let lowest := map_fold (lowest_entry top) maxInt reachability in
  lowest <= maxInt ∧
  (lowest < maxInt -> reachability !! lowest = Some (go_get top lowest)) ∧
  (∀ c, reachability !! c = Some (go_get top c) -> lowest <= c)
  ∧ (lowest = maxInt ->
     ∀ c, reachability !! c = Some (go_get top c) -> maxInt <= c).
Proof.
  simpl.
  apply (map_fold_weak_ind
    (fun lowest m =>
       lowest <= maxInt ∧
       (lowest < maxInt -> m !! lowest = Some (go_get top lowest)) ∧
       (∀ c, m !! c = Some (go_get top c) -> lowest <= c) ∧
       (lowest = maxInt -> ∀ c, m !! c = Some (go_get top c) -> maxInt <= c))).
  - split; [lia|]. split; [intros; lia|]. split; intros *; by rewrite ?lookup_empty.
  - intros k x m lowest Hk (Hle & Hext & Hlow & _). unfold lowest_entry.
    assert (Hgoal : ∀ l',
      l' <= maxInt ->
      (l' < maxInt -> <[k:=x]> m !! l' = Some (go_get top l')) ->
      (∀ c, <[k:=x]> m !! c = Some (go_get top c) -> l' <= c) ->
      l' <= maxInt ∧
      (l' < maxInt -> <[k:=x]> m !! l' = Some (go_get top l')) ∧
      (∀ c, <[k:=x]> m !! c = Some (go_get top c) -> l' <= c) ∧
      (l' = maxInt -> ∀ c, <[k:=x]> m !! c = Some (go_get top c) -> maxInt <= c)).
    { intros l' H1 H2 H3. repeat split; try done.
      intros -> c Hc. by apply H3. }
    assert (Hkeep : lowest < maxInt ->
                    <[k:=x]> m !! lowest = Some (go_get top lowest)).
    { intros Hlt. specialize (Hext Hlt).
      rewrite lookup_insert_ne; [done|]. intros ->. congruence. }
    case_bool_decide as Heq.
    + destruct (Z.ltb_spec k lowest) as [Hlt|Hge]; apply Hgoal.
      * lia.
      * intros _. by rewrite lookup_insert_eq, Heq.
      * intros c Hc. destruct (decide (k = c)) as [->|Hne]; [lia|].
        rewrite lookup_insert_ne in Hc by done. specialize (Hlow c Hc). lia.
      * done.
      * done.
      * intros c Hc. destruct (decide (k = c)) as [->|Hne]; [lia|].
        rewrite lookup_insert_ne in Hc by done. by apply Hlow.
    + apply Hgoal; [done|done|].
      intros c Hc. destruct (decide (k = c)) as [->|Hne].
      * rewrite lookup_insert_eq in Hc. congruence.
      * rewrite lookup_insert_ne in Hc by done. by apply Hlow.
Qed.

(** The state [TakeIndex] leaves, whatever it was given. *)
Lemma TakeIndex_state p reachability :
  let cov := (TakeIndex p reachability).1 in
  let p' := (TakeIndex p reachability).2 in
  topIndices p' = <[PathColor cov := PathIndex cov]> (topIndices p) ∧
  highestUsedColor p' = Z.max (highestUsedColor p) (PathColor cov) ∧
  PathIndex cov = int_add (go_get (topIndices p) (PathColor cov)) 1.
Proof.
  simpl. split; [done|]. split; [|done].
  match goal with |- context [?a <? ?b] => destruct (Z.ltb_spec a b) end; lia.
Qed.

(** The colour [TakeIndex] picks, whatever it was given: the lowest
    extendable colour below [maxInt], else the wrapped successor of
    [highestUsedColor]. *)
Lemma TakeIndex_color p reachability :
  let cov := (TakeIndex p reachability).1 in
  ((∃ c, extendable p reachability c ∧ c < maxInt) ->
     extendable p reachability (PathColor cov) ∧
     ∀ c, extendable p reachability c -> PathColor cov <= c) ∧
  ((∀ c, extendable p reachability c -> maxInt <= c) ->
     PathColor cov = int_add (highestUsedColor p) 1).
Proof.
  simpl. unfold extendable.
  destruct (lowest_fold (topIndices p) reachability) as (Hle & Hext & Hlow & Hmax).
  simpl in *. split.
  - intros (c & Hc & Hlt). pose proof (Hlow c Hc).
    rewrite bool_decide_eq_false_2 by lia. split; [apply Hext; lia|done].
  - intros Hnone. case_bool_decide as Heq; [done|].
    assert (Hlt : map_fold (lowest_entry (topIndices p)) maxInt reachability < maxInt)
      by lia.
    specialize (Hnone _ (Hext Hlt)). lia.
Qed.

(** The two ways [TakeIndex] allocates, for a state with room and a map
    with values from 1 on: it extends the colour it returns, or no colour is
    extendable and it opens the colour after [highestUsedColor], which has
    no top index yet. *)
Lemma TakeIndex_cases p reachability :
  paths_wf p ->
  (∀ c i, reachability !! c = Some i -> 1 <= i) ->
  let cov := (TakeIndex p reachability).1 in
  (extendable p reachability (PathColor cov) ∧
   PathIndex cov = go_get (topIndices p) (PathColor cov) + 1) ∨
  ((∀ c, ¬ extendable p reachability c) ∧
   PathColor cov = highestUsedColor p + 1 ∧ PathIndex cov = 1 ∧
   go_get (topIndices p) (PathColor cov) = 0).
Proof.
  intros (Hhuc & Htop) Hpos cov.
  destruct (TakeIndex_state p reachability) as (_ & _ & Hidx).
  destruct (TakeIndex_color p reachability) as (Hsome & Hnone).
  fold cov in Hidx, Hsome, Hnone.
  pose proof maxInt_val as HM. pose proof minInt_val as Hm.
  assert (Hbelow : ∀ c, extendable p reachability c -> c < maxInt).
  { intros c Hc. unfold extendable in Hc. pose proof (Hpos _ _ Hc) as Hge.
    unfold go_get in Hge.
    destruct (topIndices p !! c) as [i|] eqn:Hi; simpl in Hge; [|lia].
    destruct (Htop _ _ Hi). lia. }
  assert (Hget : ∀ c, 0 <= go_get (topIndices p) c < maxInt).
  { intros c. unfold go_get. destruct (topIndices p !! c) as [i|] eqn:Hi; simpl.
    - destruct (Htop _ _ Hi). lia.
    - lia. }
  destruct (decide (reachability !! PathColor cov
                    = Some (go_get (topIndices p) (PathColor cov)))) as [He|He].
  - left. split; [done|]. rewrite Hidx. apply int_add_small.
    specialize (Hget (PathColor cov)). lia.
  - right.
    assert (Hno : ∀ c, ¬ extendable p reachability c).
    { intros c Hc. apply He. destruct Hsome as (He' & _); [|done].
      exists c. split; [done|by apply Hbelow]. }
    assert (Hcol : PathColor cov = highestUsedColor p + 1).
    { rewrite Hnone; [apply int_add_small; lia|].
      intros c Hc. by destruct (Hno c). }
    assert (Hzero : go_get (topIndices p) (PathColor cov) = 0).
    { rewrite Hcol. apply go_get_None.
      destruct (topIndices p !! (highestUsedColor p + 1)) as [i|] eqn:Hi; [|done].
      destruct (Htop _ _ Hi). lia. }
    split; [done|]. split; [done|]. split; [|done].
    rewrite Hidx, Hzero. apply int_add_small. lia.
Qed.

(** C1. [TakeIndex] on the aggregated reachability map of any parents and
    an allocator state as a run leaves it, with room below [maxInt]: a
    colour is extendable when it is an entry of the aggregated map and its
    value there is its top index. If some colour is extendable, the
    coordinate returned is the lowest extendable colour with its top index
    plus one; if none is, it is [highestUsedColor + 1] with index 1. After
    the call the top index of the returned colour is the returned index and
    [highestUsedColor] is the maximum of its old value and the returned
    colour. *)
Theorem TakeIndex_spec (p : pathCoverage) (parents : list RepoVersion) :
  paths_wf p ->
  let aggregated := aggregateReachability parents in
  let cov := (TakeIndex p aggregated).1 in
  let p' := (TakeIndex p aggregated).2 in
  ((∃ c, extendable p aggregated c) ->
     extendable p aggregated (PathColor cov) ∧
     (∀ c, extendable p aggregated c -> PathColor cov <= c) ∧
     PathIndex cov = go_get (topIndices p) (PathColor cov) + 1) ∧
  ((∀ c, ¬ extendable p aggregated c) ->
     PathColor cov = highestUsedColor p + 1 ∧ PathIndex cov = 1) ∧
  go_get (topIndices p') (PathColor cov) = PathIndex cov ∧
  highestUsedColor p' = Z.max (highestUsedColor p) (PathColor cov).
Proof.
  intros (Hhuc & Htop) aggregated cov p'.
  assert (Hagg : ∀ c i, aggregated !! c = Some i -> 1 <= i)
    by (intros c i; apply aggregateReachability_pos).
  destruct (TakeIndex_state p aggregated) as (Htop' & Hhuc' & Hidx).
  destruct (TakeIndex_color p aggregated) as (Hsome & Hnone).
  fold cov in Htop', Hhuc', Hidx, Hsome, Hnone. fold p' in Htop', Hhuc'.
  pose proof maxInt_val as HM. pose proof minInt_val as Hm.
  assert (Hbelow : ∀ c, extendable p aggregated c -> c < maxInt).
  { intros c Hc. unfold extendable in Hc. pose proof (Hagg _ _ Hc) as Hpos.
    unfold go_get in Hpos.
    destruct (topIndices p !! c) as [i|] eqn:Hi; simpl in Hpos; [|lia].
    destruct (Htop _ _ Hi). lia. }
  assert (Hrange : ∀ c, minInt <= go_get (topIndices p) c + 1 <= maxInt).
  { intros c. unfold go_get. destruct (topIndices p !! c) as [i|] eqn:Hi; simpl.
    - destruct (Htop _ _ Hi). lia.
    - lia. }
  split; [|split; [|split]].
  - intros (c & Hc). destruct Hsome as (Hext & Hlow).
    { exists c. split; [done|by apply Hbelow]. }
    split; [done|]. split; [done|].
    rewrite Hidx. by apply int_add_small.
  - intros Hno.
    assert (Hcol : PathColor cov = highestUsedColor p + 1).
    { rewrite Hnone; [apply int_add_small; lia|].
      intros c Hc. by destruct (Hno c). }
    split; [done|]. rewrite Hidx, Hcol.
    rewrite go_get_None; [by rewrite int_add_small by lia|].
    destruct (topIndices p !! (highestUsedColor p + 1)) as [i|] eqn:Hi; [|done].
    destruct (Htop _ _ Hi). lia.
  - rewrite Htop'. apply go_get_insert_eq.
  - done.
Qed.

(** The statement holds of the merge of the diamond: its parents A and B,
    and the allocator state before it. *)
Lemma TakeIndex_spec_witness :
  let p := mkPaths {[1 := 2; 2 := 1]} 2 in
  let parents :=
    [mkRepoVersion 7 2 (mkCoverage 1 2) {[1 := 2]};
     mkRepoVersion 7 3 (mkCoverage 2 1) {[1 := 1; 2 := 1]}] in
  (∃ c, extendable p (aggregateReachability parents) c) ∧
  (TakeIndex p (aggregateReachability parents)).1 = mkCoverage 1 3 ∧
  highestUsedColor (TakeIndex p (aggregateReachability parents)).2
  = Z.max (highestUsedColor p)
          (PathColor (TakeIndex p (aggregateReachability parents)).1).
Proof.
  intros p parents.
  assert (Hwf : paths_wf p).
  { split; [simpl; rewrite maxInt_val; lia|].
    intros c i Hi. simpl in Hi. rewrite maxInt_val.
    apply lookup_insert_Some in Hi as [[<- <-]|[_ Hi]]; [simpl; lia|].
    apply lookup_singleton_Some in Hi as [<- <-]. simpl; lia. }
  split; [exists 1; by vm_compute|]. split; [by vm_compute|].
  exact (proj2 (proj2 (proj2 (TakeIndex_spec p parents Hwf)))).
Defined.

(** ** The bag *)

(** The bag is a stack: what was added last is popped first. *)
Lemma pop_add b c : pop (add b c) = Some (c, b).
Proof.
  destruct b as [l]. unfold pop, add. simpl.
  rewrite last_snoc, length_app. simpl.
  replace (length l + 1 - 1)%nat with (length l) by lia.
  by rewrite take_app_length.
Qed.

Lemma notEmpty_pop b : notEmpty b = true -> ∃ c b', pop b = Some (c, b').
Proof.
  destruct b as [l]. unfold notEmpty, pop. simpl. intros Hne.
  apply bool_decide_eq_true in Hne.
  destruct (last l) as [c|] eqn:Hl; [by eauto|].
  apply last_None in Hl. subst. simpl in Hne. lia.
Qed.

(** ** Step 2: the roots are the commits of the log without parents *)

Lemma foldl_visit_commit_roots log g :
  (foldl visit_commit g log).2 = g.2 ++ (Hash <$> filter is_root log).
Proof.
  revert g. induction log as [|c log IH]; intros g; simpl.
  - by rewrite app_nil_r.
  - rewrite IH. unfold visit_commit. simpl. rewrite filter_cons.
    destruct (decide (is_root c)) as [Hr|Hr]; unfold is_root in Hr.
    + rewrite decide_True by done. by rewrite fmap_cons, <- app_assoc.
    + by rewrite decide_False by done.
Qed.

Lemma buildGraph_roots log : (buildGraph log).2 = Hash <$> filter is_root log.
Proof. unfold buildGraph. by rewrite foldl_visit_commit_roots. Qed.

Lemma seedRoots_error git roots b e :
  seedRoots git roots b = inl e -> ∃ h, e = ErrCommitObject h.
Proof.
  revert b. induction roots as [|r roots IH]; intros b; simpl; [done|].
  destruct (CommitObject git r); [apply IH|]. intros [= <-]. by eexists.
Qed.

Lemma addReadyChildren_error git processed chs b e :
  addReadyChildren git processed chs b = inl e -> ∃ h, e = ErrCommitObject h.
Proof.
  revert b. induction chs as [|ch chs IH]; intros b; simpl; [done|].
  case_bool_decide; [apply IH|].
  destruct (CommitObject git ch) as [cc|]; [|intros [= <-]; by eexists].
  destruct (chParentsProcessed processed (ParentHashes cc)); apply IH.
Qed.

(** ** Step 3: one turn of the loop, and runs of turns *)

Section Loop.

Context {DB : Type} `{Store : RepoVersionStore DB}.
Variable git : GitRepo.
Variable children : gmap N (list N).
Variable repoID : Z.

Local Abbreviation body := (loop_body git children repoID).
Local Abbreviation run fuel := (run_loop fuel git children repoID).

Lemma run_loop_turns n k st st' :
  turns git children repoID n st st' -> run (n + k) st = run k st'.
Proof.
  induction 1 as [|n st st1 st2 Hne Hbody _ IH]; [done|].
  simpl. by rewrite Hne, Hbody.
Qed.

Lemma run_loop_more n k st out st' :
  run n st = (Returned out, st') ->
  run (n + k) st = (Returned out, st').
Proof.
  revert st. induction n as [|n IH]; intros st; simpl; [done|].
  destruct (notEmpty (toBeProcessed st)); [|done].
  destruct (body st) as [st1 [e|]]; [done|]. apply IH.
Qed.

Lemma lookupParents_error store hs acc e :
  lookupParents store repoID hs acc = inl e ->
  (∃ h, e = ErrExpectedToFind h) ∨ (∃ msg, e = ErrStore msg).
Proof.
  revert acc. induction hs as [|h hs IH]; intros acc; simpl; [done|].
  destruct (Lookup store repoID h) as [msg|[p|]].
  - intros [= <-]. right. by eexists.
  - apply IH.
  - intros [= <-]. left. by eexists.
Qed.

(** What a turn on a bag that is not empty does, case by case. *)
Lemma loop_body_inv st st' err :
  body st = (st', err) ->
  notEmpty (toBeProcessed st) = true ->
  ∃ c b, pop (toBeProcessed st) = Some (c, b) ∧
    match lookupParents (db st) repoID (ParentHashes c) [] with
    | inl e =>
      err = Some e ∧
      st' = mkLoopState b (processed st) (paths st) (db st) (finalized st)
    | inr parents =>
      let mv := makeVersion repoID c (paths st) parents in
      let cr := CreateIfNotExists (db st) mv.1 in
      paths st' = mv.2 ∧ db st' = cr.1 ∧
      finalized st' = finalized st ++ [mkFinalization mv.1 parents] ∧
      match cr.2 with
      | Some e =>
        err = Some (ErrStore e) ∧ toBeProcessed st' = b ∧
        processed st' = processed st
      | None =>
        processed st' = {[Hash c]} ∪ processed st ∧
        match addReadyChildren git ({[Hash c]} ∪ processed st)
                (children_of children (Hash c)) b with
        | inl e => err = Some e ∧ toBeProcessed st' = b
        | inr b' => err = None ∧ toBeProcessed st' = b'
        end
      end
    end.
Proof.
  intros Hbody Hne. destruct (notEmpty_pop _ Hne) as (c & b & Hpop).
  exists c, b. split; [done|]. unfold loop_body in Hbody.
  rewrite Hpop in Hbody.
  destruct (lookupParents (db st) repoID (ParentHashes c) []) as [e|parents].
  { by injection Hbody as <- <-. }
  cbv zeta. destruct (makeVersion repoID c (paths st) parents) as [v p'].
  cbn [fst snd]. destruct (CreateIfNotExists (db st) v) as [db' [e|]]; cbn [fst snd].
  { by injection Hbody as <- <-. }
  destruct (addReadyChildren git _ _ b) as [e|b'];
    by injection Hbody as <- <-.
Qed.

Lemma loop_body_error st st' e :
  body st = (st', Some e) -> e ≠ ErrNoRootCommit.
Proof.
  unfold loop_body. destruct (pop (toBeProcessed st)) as [[c b]|]; [|done].
  destruct (lookupParents (db st) repoID (ParentHashes c) []) as [e'|parents] eqn:Hl.
  { intros [= _ <-]. by apply lookupParents_error in Hl as [[h ->]|[msg ->]]. }
  destruct (makeVersion repoID c (paths st) parents) as [v p'].
  destruct (CreateIfNotExists (db st) v) as [db' [e'|]]; [by intros [= _ <-]|].
  destruct (addReadyChildren git _ _ b) as [e'|b'] eqn:Ha; [|done].
  intros [= _ <-]. by apply addReadyChildren_error in Ha as [h ->].
Qed.

Lemma run_loop_error fuel st st' e :
  run fuel st = (Returned (Some e), st') -> e ≠ ErrNoRootCommit.
Proof.
  revert st. induction fuel as [|fuel IH]; intros st; simpl; [done|].
  destruct (notEmpty (toBeProcessed st)); [|done].
  destruct (body st) as [st1 [e'|]] eqn:Hbody; [|apply IH].
  intros [= <- _]. by eapply loop_body_error.
Qed.

(** The calls already made stay, in their order. *)
Lemma loop_body_finalized st st' err :
  body st = (st', err) ->
  finalized st' = finalized st ∨
  ∃ c parents,
    finalized st' =
    finalized st ++ [mkFinalization (makeVersion repoID c (paths st) parents).1 parents].
Proof.
  unfold loop_body. destruct (pop (toBeProcessed st)) as [[c b]|];
    [|intros [= <- _]; by left].
  destruct (lookupParents (db st) repoID (ParentHashes c) []) as [e'|parents].
  { intros [= <- _]. by left. }
  intros Hbody. right. exists c, parents.
  destruct (makeVersion repoID c (paths st) parents) as [v p'].
  destruct (CreateIfNotExists (db st) v) as [db' [e'|]];
    [by injection Hbody as <- _|].
  destruct (addReadyChildren git _ _ b) as [e'|b']; by injection Hbody as <- _.
Qed.

(** A property of every version built holds of every call of a run. *)
Lemma run_loop_finalized_Forall (P : Finalization -> Prop) fuel st out st' :
  (∀ c p parents, P (mkFinalization (makeVersion repoID c p parents).1 parents)) ->
  run fuel st = (out, st') ->
  Forall P (finalized st) -> Forall P (finalized st').
Proof.
  intros HP. revert st. induction fuel as [|fuel IH]; intros st; simpl.
  { by intros [= _ <-]. }
  destruct (notEmpty (toBeProcessed st)); [|by intros [= _ <-]].
  destruct (body st) as [st1 err] eqn:Hbody.
  assert (Hstep : Forall P (finalized st) -> Forall P (finalized st1)).
  { intros Hall. apply loop_body_finalized in Hbody as [->|(c & ps & ->)]; [done|].
    apply Forall_app. split; [done|]. apply Forall_singleton, HP. }
  destruct err as [e|]; [intros [= _ <-]; done|].
  intros Hrun Hall. by eapply IH; [|apply Hstep].
Qed.

End Loop.

(** ** Clone *)

Lemma makeVersion_fields repoID c p parents :
  let v := (makeVersion repoID c p parents).1 in
  let cov := (TakeIndex p (aggregateReachability parents)).1 in
  RepoID v = repoID ∧ ExternalID v = Hash c ∧ PathCoverage v = cov ∧
  Reachability v = <[PathColor cov := PathIndex cov]> (aggregateReachability parents) ∧
  (makeVersion repoID c p parents).2 = (TakeIndex p (aggregateReachability parents)).2.
Proof.
  unfold makeVersion.
  by destruct (TakeIndex p (aggregateReachability parents)) as [cov p'].
Qed.

Lemma makeVersion_self_reachable repoID c p parents :
  self_reachable (makeVersion repoID c p parents).1.
Proof.
  destruct (makeVersion_fields repoID c p parents) as (_ & _ & Hcov & Hreach & _).
  unfold self_reachable. rewrite Hreach, Hcov. apply lookup_insert_eq.
Qed.

(** C2. Every version that a run of [Clone] passes to [CreateIfNotExists]
    has, in its reachability map, its own index at its own colour. *)
Theorem Clone_self_reachability {DB : Type} `{RepoVersionStore DB}
    (fuel : nat) (git : GitRepo) (repoID : Z) (store : DB) :
  Forall (fun f => self_reachable (fin_version f)) (Clone fuel git repoID store).2.
Proof.
  unfold Clone. destruct (buildGraph (Log git)) as [children roots].
  case_decide; [by apply Forall_nil|].
  destruct (seedRoots git roots (mkBag [])) as [e|b]; [by apply Forall_nil|].
  destruct (run_loop fuel git children repoID (initialState b store))
    as [out st] eqn:Hrun. simpl.
  eapply run_loop_finalized_Forall; [|exact Hrun|by apply Forall_nil].
  intros c p parents. apply makeVersion_self_reachable.
Qed.

(** C7. [Clone] returns the error "want at least one root commit", with the
    store as it was and no call of [CreateIfNotExists], whenever no commit of
    the log is without parents; and when some commit of the log is without
    parents, that error is not what [Clone] returns. *)
Theorem Clone_no_root_commit {DB : Type} `{RepoVersionStore DB}
    (fuel : nat) (git : GitRepo) (repoID : Z) (store : DB) :
  ((∀ c, c ∈ Log git -> ¬ is_root c) ->
     Clone fuel git repoID store = (Returned (Some ErrNoRootCommit), store, [])) ∧
  ((∃ c, c ∈ Log git ∧ is_root c) ->
     (Clone fuel git repoID store).1.1 ≠ Returned (Some ErrNoRootCommit)).
Proof.
  unfold Clone. pose proof (buildGraph_roots (Log git)) as Hroots.
  destruct (buildGraph (Log git)) as [children roots]. simpl in Hroots. split.
  - intros Hno. rewrite decide_True; [done|]. subst roots.
    destruct (filter is_root (Log git)) as [|c l] eqn:Hf; [done|].
    assert (Hc : c ∈ filter is_root (Log git)) by (rewrite Hf; left).
    apply list_elem_of_filter in Hc as [Hr Hin]. by destruct (Hno c).
  - intros (c & Hin & Hr). rewrite decide_False.
    + destruct (seedRoots git roots (mkBag [])) as [e|b] eqn:Hseed.
      * simpl. apply seedRoots_error in Hseed as [h ->]. done.
      * destruct (run_loop fuel git children repoID (initialState b store))
          as [out st] eqn:Hrun. simpl. intros ->.
        by apply run_loop_error in Hrun.
    + subst roots. intros Hlen.
      assert (Hc : Hash c ∈ Hash <$> filter is_root (Log git)).
      { apply list_elem_of_fmap. exists c. split; [done|].
        by apply list_elem_of_filter. }
      destruct (Hash <$> filter is_root (Log git)); [|done].
      by apply elem_of_nil in Hc.
Qed.

Lemma lookupParents_app {DB : Type} `{RepoVersionStore DB}
    (store : DB) repoID pre h post acc :
  (∀ h', h' ∈ pre -> ∃ p, Lookup store repoID h' = inr (Some p)) ->
  Lookup store repoID h = inr None ->
  lookupParents store repoID (pre ++ h :: post) acc = inl (ErrExpectedToFind h).
Proof.
  revert acc. induction pre as [|h0 pre IH]; intros acc Hpre Hh; simpl.
  - by rewrite Hh.
  - destruct (Hpre h0) as [p ->]; [left|]. apply IH; [|done].
    intros h' Hin. apply Hpre. by right.
Qed.

(** C8. When the loop of [Clone] pops a commit and the lookup of one of its
    parents finds no version (the parents before it were found), [Clone]
    returns the error "expected to find ... in database" at once: the store
    and the calls of [CreateIfNotExists] are those made before the commit
    was popped, and no further turn is made. *)
Theorem Clone_missing_parent_is_fatal {DB : Type} `{RepoVersionStore DB}
    (git : GitRepo) (repoID : Z) (store : DB) (n fuel : nat) (st : LoopState DB)
    (c : Commit) (pre post : list N) (h : N) :
  Clone_stands_at git repoID store n st ->
  last (stack (toBeProcessed st)) = Some c ->
  ParentHashes c = pre ++ h :: post ->
  (∀ h', h' ∈ pre -> ∃ p, Lookup (db st) repoID h' = inr (Some p)) ->
  Lookup (db st) repoID h = inr None ->
  Clone (n + S fuel) git repoID store
  = (Returned (Some (ErrExpectedToFind h)), db st, finalized st).
Proof.
  intros (b & Hroots & Hseed & Hturns) Hlast Hparents Hpre Hh.
  unfold Clone. destruct (buildGraph (Log git)) as [children roots].
  simpl in *. rewrite decide_False by (by destruct roots).
  rewrite Hseed, (run_loop_turns _ _ _ _ _ _ _ Hturns). simpl.
  assert (Hne : notEmpty (toBeProcessed st) = true).
  { unfold notEmpty. apply bool_decide_eq_true.
    destruct (stack (toBeProcessed st)); [done|simpl; lia]. }
  rewrite Hne. unfold loop_body, pop. rewrite Hlast, Hparents.
  by rewrite (lookupParents_app _ _ _ _ _ _ Hpre Hh).
Qed.

(** The statement holds of a root and its child over a store that lost the
    root. *)
Lemma Clone_missing_parent_is_fatal_witness :
  let git := repo_of_log [mkCommit 2 [1%N]; mkCommit 1 []] in
  @Clone unit ForgetfulStore 5 git 7 tt
  = (Returned (Some (ErrExpectedToFind 1)), tt,
     [mkFinalization (mkRepoVersion 7 1 (mkCoverage 1 1) {[1 := 1]}) []]).
Proof.
  intros git.
  pose (st := @mkLoopState unit (mkBag [mkCommit 2 [1%N]]) {[1%N]}
                (mkPaths {[1 := 1]} 1) tt
                [mkFinalization (mkRepoVersion 7 1 (mkCoverage 1 1) {[1 := 1]}) []]).
  assert (Hat : @Clone_stands_at unit ForgetfulStore git 7 tt 1 st).
  { exists (mkBag [mkCommit 1 []]). split; [by vm_compute|]. split; [by vm_compute|].
    eapply turns_S; [by vm_compute|by vm_compute|]. apply turns_O. }
  apply (@Clone_missing_parent_is_fatal unit ForgetfulStore git 7 tt 1 3 st
           (mkCommit 2 [1%N]) [] [] 1%N Hat).
  - reflexivity.
  - reflexivity.
  - intros h' Hin. by apply elem_of_nil in Hin.
  - reflexivity.
Defined.

Lemma Clone_more {DB : Type} `{RepoVersionStore DB}
    (n k : nat) git repoID (store : DB) out store' calls :
  Clone n git repoID store = (Returned out, store', calls) ->
  Clone (n + k) git repoID store = (Returned out, store', calls).
Proof.
  unfold Clone. destruct (buildGraph (Log git)) as [children roots].
  case_decide; [done|].
  destruct (seedRoots git roots (mkBag [])) as [e|b]; [done|].
  destruct (run_loop n git children repoID (initialState b store))
    as [out' st] eqn:Hrun.
  intros [= -> <- <-]. by rewrite (run_loop_more _ _ _ _ k _ _ _ Hrun).
Qed.

(** ** The diamond *)

Example diamond_logs_length : length diamond_logs = 12%nat.
Proof. by vm_compute. Qed.

Example diamond_log_newest_first :
  [diamond_M; diamond_B; diamond_A; diamond_R] ∈ diamond_logs.
Proof.
  apply list_elem_of_filter. split; [by vm_compute|].
  apply permutations_Permutation.
  change ([diamond_M; diamond_B; diamond_A; diamond_R])
    with ([diamond_M; diamond_B; diamond_A] ++ [diamond_R]).
  rewrite <- Permutation_cons_append. constructor.
  change ([diamond_M; diamond_B; diamond_A])
    with ([diamond_M; diamond_B] ++ [diamond_A]).
  rewrite <- Permutation_cons_append. constructor.
  apply perm_swap.
Qed.

(** The order of processing is R, A, B, M on each of these logs. *)
Example diamond_order :
  Forall (fun log =>
            (fun f => ExternalID (fin_version f))
              <$> (Clone 5 (repo_of_log log) 7 ([] : list RepoVersion)).2
            = [1; 2; 3; 4]%N)
         diamond_logs.
Proof.
  assert (Hlogs : diamond_logs =
                 ltac:(let l := eval vm_compute in diamond_logs in exact l))
    by (vm_compute; reflexivity).
  rewrite Hlogs.
  repeat (apply List.Forall_cons; [by vm_compute|]). apply List.Forall_nil.
Qed.

(** C5, as the code has it. For the diamond R, A, B, M processed in this
    order from an empty store, R gets (colour 1, index 1, {1:1}), A gets
    (1, 2, {1:2}), B gets (2, 1, {1:1, 2:1}) and M gets (1, 3, {1:3, 2:1}):
    B keeps the entry of colour 1 it inherits from R. [Clone] returns
    without error and the store holds these four versions. *)
Theorem diamond_coordinates (k : nat) :
  Forall (fun log =>
            Clone (5 + k) (repo_of_log log) 7 ([] : list RepoVersion)
            = (Returned None, diamond_versions, diamond_calls))
         diamond_logs.
Proof.
  assert (Hlogs : diamond_logs =
                 ltac:(let l := eval vm_compute in diamond_logs in exact l))
    by (vm_compute; reflexivity).
  rewrite Hlogs.
  repeat (apply List.Forall_cons; [apply Clone_more; by vm_compute|]).
  apply List.Forall_nil.
Qed.

(** The versions the scenario lists are not the ones [Clone] stores: the
    version of B has the entry 1 at colour 1, so its map is not [{2:1}]. *)
Lemma diamond_B_reachability_counterexample :
  let result :=
    Clone 5 (repo_of_log [diamond_M; diamond_B; diamond_A; diamond_R]) 7
          ([] : list RepoVersion) in
  result.1.1 = Returned None ∧
  result.1.2 ≠ diamond_versions_spec ∧
  ∃ v, result.1.2 !! 2%nat = Some v ∧ ExternalID v = 3%N ∧
       PathCoverage v = mkCoverage 2 1 ∧
       Reachability v !! 1 = Some 1 ∧ Reachability v ≠ {[2 := 1]}.
Proof.
  split; [by vm_compute|]. split; [by vm_compute|].
  eexists. split; [by vm_compute|]. split; [done|]. split; [done|].
  split; by vm_compute.
Qed.

(** ** The diamond, interrupted and resumed *)

(** The resumed run does not start from the reconstructed allocator state:
    with R and A persisted the reconstruction has top index 2 for colour 1,
    and the loop of [Clone] starts with no top index at all. *)
Lemma diamond_resume_allocator_counterexample :
  let git := repo_of_log diamond_log in
  let persisted := (Clone 2 git 7 ([] : list RepoVersion)).1.2 in
  persisted = take 2 diamond_versions ∧
  reconstructed_paths persisted = mkPaths {[1 := 2]} 1 ∧
  (∃ st, Clone_stands_at git 7 persisted 0 st) ∧
  ∀ st, Clone_stands_at git 7 persisted 0 st ->
        paths st = mkPaths ∅ 0 ∧ paths st ≠ reconstructed_paths persisted.
Proof.
  split; [by vm_compute|]. split; [by vm_compute|]. split.
  - exists (initialState (mkBag [diamond_R]) (take 2 diamond_versions)).
    exists (mkBag [diamond_R]). split; [by vm_compute|]. split; [by vm_compute|].
    apply turns_O.
  - intros st (b & _ & _ & Hturns). inversion Hturns; subst.
    split; [done|]. by vm_compute.
Qed.

(** ** The table store *)

Lemma has_key_true repoID h v :
  has_key repoID h v = true ↔ RepoID v = repoID ∧ ExternalID v = h.
Proof. unfold has_key. by rewrite bool_decide_eq_true. Qed.

Lemma table_lookup_Some rows repoID h v :
  table_lookup rows repoID h = Some v ->
  v ∈ rows ∧ RepoID v = repoID ∧ ExternalID v = h.
Proof.
  unfold table_lookup. intros Hf. apply find_some in Hf as [Hin Hk].
  apply has_key_true in Hk. split; [by apply list_elem_of_In|done].
Qed.

Lemma table_lookup_None rows repoID h :
  table_lookup rows repoID h = None ↔
  ∀ v, v ∈ rows -> ¬ (RepoID v = repoID ∧ ExternalID v = h).
Proof.
  unfold table_lookup. split.
  - intros Hf v Hin Hk. apply list_elem_of_In in Hin.
    pose proof (find_none _ _ Hf v Hin) as Hn.
    apply has_key_true in Hk. congruence.
  - intros Hall. induction rows as [|r rows IH]; simpl; [done|].
    destruct (has_key repoID h r) eqn:Hk.
    + apply has_key_true in Hk. destruct (Hall r); [left|done].
    + apply IH. intros v Hin. apply Hall. by right.
Qed.

Lemma table_lookup_app rows rows' repoID h :
  table_lookup (rows ++ rows') repoID h =
  match table_lookup rows repoID h with
  | Some v => Some v
  | None => table_lookup rows' repoID h
  end.
Proof.
  unfold table_lookup. induction rows as [|r rows IH]; simpl; [done|].
  by destruct (has_key repoID h r).
Qed.

Lemma table_has_key rows repoID h :
  table_has rows repoID h ↔ (repoID, h) ∈ table_key <$> rows.
Proof.
  unfold table_has. split.
  - intros [v Hv]. apply table_lookup_Some in Hv as (Hin & <- & <-).
    apply list_elem_of_fmap. by exists v.
  - intros (v & [= -> ->] & Hin)%list_elem_of_fmap.
    destruct (table_lookup rows (RepoID v) (ExternalID v)) eqn:Hl; [done|].
    rewrite table_lookup_None in Hl. by destruct (Hl v Hin).
Qed.

Lemma table_create_present rows v :
  table_has rows (RepoID v) (ExternalID v) -> table_create rows v = rows.
Proof. unfold table_has, table_create. by intros [w ->]. Qed.

Lemma table_create_absent rows v :
  table_lookup rows (RepoID v) (ExternalID v) = None ->
  table_create rows v = rows ++ [v].
Proof. unfold table_create. by intros ->. Qed.

Lemma table_create_lookup rows v repoID h w :
  table_lookup rows repoID h = Some w ->
  table_lookup (table_create rows v) repoID h = Some w.
Proof.
  intros Hl. unfold table_create.
  destruct (table_lookup rows (RepoID v) (ExternalID v)); [done|].
  by rewrite table_lookup_app, Hl.
Qed.

Lemma table_create_has rows v :
  table_has (table_create rows v) (RepoID v) (ExternalID v).
Proof.
  unfold table_has, table_create.
  destruct (table_lookup rows (RepoID v) (ExternalID v)) as [w|] eqn:Hl.
  - by rewrite Hl.
  - rewrite table_lookup_app, Hl. unfold table_lookup. simpl.
    replace (has_key (RepoID v) (ExternalID v) v) with true; [done|].
    symmetry. by apply has_key_true.
Qed.

(** [CreateIfNotExists] never makes two rows with one key. *)
Lemma table_create_NoDup rows v :
  NoDup (table_key <$> rows) -> NoDup (table_key <$> table_create rows v).
Proof.
  intros Hnd. unfold table_create.
  destruct (table_lookup rows (RepoID v) (ExternalID v)) eqn:Hl; [done|].
  rewrite fmap_app. apply NoDup_app. split; [done|]. split.
  - intros k Hk Hk'. simpl in Hk'. apply list_elem_of_singleton in Hk'. subst k.
    apply table_has_key in Hk. destruct Hk as [w Hw]. congruence.
  - simpl. apply NoDup_singleton.
Qed.

Lemma lookupParents_table_Some rows repoID hs acc ps :
  lookupParents rows repoID hs acc = inr ps ->
  ∀ h, h ∈ hs -> table_has rows repoID h.
Proof.
  revert acc. induction hs as [|h0 hs IH]; intros acc; simpl.
  - intros _ h Hin. by apply elem_of_nil in Hin.
  - destruct (table_lookup rows repoID h0) as [p|] eqn:Hl; [|done].
    intros Hrest h [->|Hin]%elem_of_cons.
    + unfold table_has. by rewrite Hl.
    + by eapply IH.
Qed.

Lemma lookupParents_table_has rows repoID hs acc :
  (∀ h, h ∈ hs -> table_has rows repoID h) ->
  ∃ ps, lookupParents rows repoID hs acc = inr ps.
Proof.
  revert acc. induction hs as [|h0 hs IH]; intros acc Hall; simpl.
  - by eexists.
  - destruct (Hall h0) as [p Hp]; [left|]. rewrite Hp.
    apply IH. intros h Hin. apply Hall. by right.
Qed.


(** ** Clone over the table store *)

Section TableLoop.

Variable git : GitRepo.
Variable children : gmap N (list N).
Variable repoID : Z.

Local Abbreviation tbody := (@loop_body (list RepoVersion) TableStore git children repoID).
Local Abbreviation trun fuel := (@run_loop (list RepoVersion) TableStore fuel git children repoID).

(** One turn over the table store, forwards: the table never errs. *)
Lemma table_loop_body st c b parents :
  pop (toBeProcessed st) = Some (c, b) ->
  lookupParents (db st) repoID (ParentHashes c) [] = inr parents ->
  let mv := makeVersion repoID c (paths st) parents in
  let processed' := {[Hash c]} ∪ processed st in
  let fin := finalized st ++ [mkFinalization mv.1 parents] in
  let db' := table_create (db st) mv.1 in
  tbody st =
  match addReadyChildren git processed' (children_of children (Hash c)) b with
  | inl e => (mkLoopState b processed' mv.2 db' fin, Some e)
  | inr b' => (mkLoopState b' processed' mv.2 db' fin, None)
  end.
Proof.
  intros Hpop Hl. unfold loop_body. rewrite Hpop, Hl.
  destruct (makeVersion repoID c (paths st) parents) as [v p']. done.
Qed.

(** A turn keeps every row and every lookup. *)
Lemma table_loop_body_lookup st st' err r h w :
  tbody st = (st', err) ->
  table_lookup (db st) r h = Some w -> table_lookup (db st') r h = Some w.
Proof.
  unfold loop_body. destruct (pop (toBeProcessed st)) as [[c b]|];
    [|by intros [= <- _]].
  destruct (lookupParents (db st) repoID (ParentHashes c) []) as [e|parents];
    [by intros [= <- _]|].
  destruct (makeVersion repoID c (paths st) parents) as [v p']. simpl.
  intros Hbody Hw.
  destruct (addReadyChildren git _ _ b); injection Hbody as <- _; simpl;
    by apply table_create_lookup.
Qed.

Lemma table_run_lookup fuel st out st' r h w :
  trun fuel st = (out, st') ->
  table_lookup (db st) r h = Some w -> table_lookup (db st') r h = Some w.
Proof.
  revert st. induction fuel as [|fuel IH]; intros st; simpl.
  { by intros [= _ <-]. }
  destruct (notEmpty (toBeProcessed st)); [|by intros [= _ <-]].
  destruct (tbody st) as [st1 [e|]] eqn:Hbody.
  - intros [= _ <-]. by eapply table_loop_body_lookup.
  - intros Hrun Hw. eapply IH; [done|]. by eapply table_loop_body_lookup.
Qed.

Lemma table_run_has fuel st out st' r h :
  trun fuel st = (out, st') ->
  table_has (db st) r h -> table_has (db st') r h.
Proof. intros Hrun [w Hw]. exists w. by eapply table_run_lookup. Qed.

Lemma table_loop_body_NoDup st st' err :
  tbody st = (st', err) ->
  NoDup (table_key <$> db st) -> NoDup (table_key <$> db st').
Proof.
  unfold loop_body. destruct (pop (toBeProcessed st)) as [[c b]|];
    [|by intros [= <- _]].
  destruct (lookupParents (db st) repoID (ParentHashes c) []) as [e|parents];
    [by intros [= <- _]|].
  destruct (makeVersion repoID c (paths st) parents) as [v p']. simpl.
  intros Hbody Hnd.
  destruct (addReadyChildren git _ _ b); injection Hbody as <- _; simpl;
    by apply table_create_NoDup.
Qed.

Lemma table_run_NoDup fuel st out st' :
  trun fuel st = (out, st') ->
  NoDup (table_key <$> db st) -> NoDup (table_key <$> db st').
Proof.
  revert st. induction fuel as [|fuel IH]; intros st; simpl.
  { by intros [= _ <-]. }
  destruct (notEmpty (toBeProcessed st)); [|by intros [= _ <-]].
  destruct (tbody st) as [st1 [e|]] eqn:Hbody.
  - intros [= _ <-]. by eapply table_loop_body_NoDup.
  - intros Hrun Hnd. eapply IH; [done|]. by eapply table_loop_body_NoDup.
Qed.

(** A second run in step with a first one that returned without error:
    same bag and same processed set at every turn, every key of the first
    run's final table already in the second run's table. The second run
    returns without error too and leaves its table as it found it. *)
Lemma table_rerun fuel st1 st1' st2 :
  trun fuel st1 = (Returned None, st1') ->
  toBeProcessed st2 = toBeProcessed st1 ->
  processed st2 = processed st1 ->
  (∀ h, table_has (db st1') repoID h -> table_has (db st2) repoID h) ->
  ∃ st2', trun fuel st2 = (Returned None, st2') ∧ db st2' = db st2.
Proof.
  revert st1 st2. induction fuel as [|fuel IH]; intros st1 st2; simpl; [done|].
  intros Hrun Hbag Hproc Hkeys. rewrite Hbag.
  destruct (notEmpty (toBeProcessed st1)) eqn:Hne; [|by eexists].
  destruct (tbody st1) as [st1a [e|]] eqn:Hbody1; [done|].
  destruct (loop_body_inv _ _ _ _ _ _ Hbody1 Hne) as (c & b & Hpop & Hcase).
  destruct (lookupParents (db st1) repoID (ParentHashes c) [])
    as [e|parents1] eqn:Hl1; [by destruct Hcase|].
  cbv zeta in Hcase. destruct Hcase as (Hp1 & Hdb1 & Hfin1 & Hcase).
  simpl in Hcase. destruct Hcase as (Hproc1 & Hcase).
  destruct (addReadyChildren git ({[Hash c]} ∪ processed st1)
              (children_of children (Hash c)) b) as [e|b'] eqn:Hadd;
    [by destruct Hcase|].
  destruct Hcase as (_ & Hbag1).
  assert (Hfinal : ∀ h, table_has (db st1a) repoID h -> table_has (db st2) repoID h).
  { intros h Hh. apply Hkeys. by eapply table_run_has. }
  destruct (lookupParents_table_has (db st2) repoID (ParentHashes c) [])
    as [parents2 Hl2].
  { intros h Hin. apply Hfinal.
    apply (lookupParents_table_Some _ _ _ _ _ Hl1) in Hin as [w Hw].
    exists w. by eapply table_loop_body_lookup. }
  rewrite <- Hbag in Hpop.
  pose proof (table_loop_body st2 c b parents2 Hpop Hl2) as Hbody2.
  cbv zeta in Hbody2. rewrite Hproc, Hadd in Hbody2. rewrite Hbody2.
  destruct (makeVersion_fields repoID c (paths st2) parents2)
    as (Hrid & Hext & _).
  assert (Hsame : table_create (db st2)
                    (makeVersion repoID c (paths st2) parents2).1 = db st2).
  { apply table_create_present. rewrite Hrid, Hext. apply Hfinal.
    rewrite Hdb1. simpl.
    destruct (makeVersion_fields repoID c (paths st1) parents1)
      as (Hrid1 & Hext1 & _).
    rewrite <- Hrid1 at 2. rewrite <- Hext1. apply table_create_has. }
  rewrite Hsame.
  edestruct (IH st1a) as (st2' & Hrun2 & Hdb2); [exact Hrun| | | |].
  4: { exists st2'. split; [exact Hrun2|]. rewrite Hdb2. done. }
  - by rewrite Hbag1.
  - by rewrite Hproc1.
  - done.
Qed.

Lemma lookupParents_table_mono rows rows' hs acc ps :
  (∀ h w, table_lookup rows repoID h = Some w ->
          table_lookup rows' repoID h = Some w) ->
  lookupParents rows repoID hs acc = inr ps ->
  lookupParents rows' repoID hs acc = inr ps.
Proof.
  intros Hmono. revert acc. induction hs as [|h hs IH]; intros acc; simpl; [done|].
  destruct (table_lookup rows repoID h) as [w|] eqn:Hw; [|done].
  rewrite (Hmono h w Hw). apply IH.
Qed.

(** A run cut after [n] turns and a run that goes on to return, both from
    [st1]; and a second run from [st2], which is [st1] over the table the
    cut run left. The second run returns what the uncut run returns, with
    the same table and the same calls. *)
Lemma table_resume n st1 st1n :
  trun n st1 = (OutOfFuel, st1n) ->
  ∀ fuel st2 out stf,
    toBeProcessed st2 = toBeProcessed st1 ->
    processed st2 = processed st1 ->
    paths st2 = paths st1 ->
    finalized st2 = finalized st1 ->
    db st2 = db st1n ->
    trun fuel st1 = (Returned out, stf) ->
    ∃ stf', trun fuel st2 = (Returned out, stf') ∧
            db stf' = db stf ∧ finalized stf' = finalized stf.
Proof.
  revert st1. induction n as [|n IH]; intros st1; simpl.
  - intros [= <-] fuel st2 out stf Hbag Hproc Hpaths Hfin Hdb Hrun.
    assert (st2 = st1) as ->.
    { destruct st1, st2. simpl in *. by subst. }
    by exists stf.
  - destruct (notEmpty (toBeProcessed st1)) eqn:Hne; [|done].
    destruct (tbody st1) as [st1a [e|]] eqn:Hbody1; [done|].
    intros Hcut fuel st2 out stf Hbag Hproc Hpaths Hfin Hdb Hrun.
    destruct fuel as [|fuel]; [done|]. simpl in Hrun. rewrite Hne, Hbody1 in Hrun.
    destruct (loop_body_inv _ _ _ _ _ _ Hbody1 Hne) as (c & b & Hpop & Hcase).
    destruct (lookupParents (db st1) repoID (ParentHashes c) [])
      as [e|parents] eqn:Hl1; [by destruct Hcase|].
    cbv zeta in Hcase. destruct Hcase as (Hp1 & Hdb1 & Hfin1 & Hcase).
    simpl in Hcase. destruct Hcase as (Hproc1 & Hcase).
    destruct (addReadyChildren git ({[Hash c]} ∪ processed st1)
                (children_of children (Hash c)) b) as [e|b'] eqn:Hadd;
      [by destruct Hcase|].
    destruct Hcase as (_ & Hbag1).
    assert (Hl2 : lookupParents (db st2) repoID (ParentHashes c) [] = inr parents).
    { eapply lookupParents_table_mono; [|exact Hl1].
      intros h w Hw. rewrite Hdb. eapply table_run_lookup; [exact Hcut|].
      by eapply table_loop_body_lookup. }
    rewrite <- Hbag in Hpop.
    pose proof (table_loop_body st2 c b parents Hpop Hl2) as Hbody2.
    cbv zeta in Hbody2. rewrite Hproc, Hpaths, Hfin, Hadd in Hbody2.
    assert (Hsame : table_create (db st2)
                      (makeVersion repoID c (paths st1) parents).1 = db st2).
    { apply table_create_present. rewrite Hdb.
      eapply table_run_has; [exact Hcut|]. rewrite Hdb1. apply table_create_has. }
    rewrite Hsame in Hbody2.
    simpl. rewrite Hbag, Hne, Hbody2.
    by apply (IH st1a Hcut fuel _ out stf).
Qed.

End TableLoop.

(** C9. Over the table store: when [Clone] returns without error, the
    table it leaves has no two rows with one [(repositoryID, externalID)]
    if the table it found had none; and [Clone] run again on the same
    repository and the table so left returns without error and leaves that
    table as it is, row for row. *)
Theorem Clone_twice (fuel : nat) (git : GitRepo) (repoID : Z)
    (store store1 : list RepoVersion) (calls1 : list Finalization) :
  NoDup (table_key <$> store) ->
  Clone fuel git repoID store = (Returned None, store1, calls1) ->
  NoDup (table_key <$> store1) ∧
  ∃ calls2, Clone fuel git repoID store1 = (Returned None, store1, calls2).
Proof.
  intros Hnd. unfold Clone. destruct (buildGraph (Log git)) as [children roots].
  case_decide; [done|].
  destruct (seedRoots git roots (mkBag [])) as [e|b]; [done|].
  destruct (run_loop fuel git children repoID (initialState b store))
    as [out st1] eqn:Hrun1.
  intros [= -> <- <-]. split.
  { by apply (table_run_NoDup _ _ _ _ _ _ _ Hrun1). }
  destruct (table_rerun _ _ _ _ _ _ (initialState b (db st1)) Hrun1)
    as (st2 & Hrun2 & Hdb2); [done|done|done|].
  exists (finalized st2). by rewrite Hrun2, Hdb2.
Qed.

(** The statement holds of the diamond ingested into the empty table. *)
Lemma Clone_twice_witness :
  NoDup (table_key <$> diamond_versions) ∧
  ∃ calls2, Clone 5 (repo_of_log diamond_log) 7 diamond_versions
            = (Returned None, diamond_versions, calls2).
Proof.
  apply (Clone_twice 5 (repo_of_log diamond_log) 7 [] diamond_versions diamond_calls).
  - apply NoDup_nil_2.
  - vm_compute. reflexivity.
Defined.

(** ** A run cut short and run again *)

(** C4, as the code has it. Over the table store: a run of [Clone] is cut
    after [n] turns, when the commits of these turns are persisted, and
    [Clone] is run again on the store so left. The second run starts with
    the empty allocator state like every run, computes every commit anew
    from the roots (for the commits already persisted [CreateIfNotExists]
    changes nothing) and returns what the uncut run returns, with the same
    store and the same calls: the remaining commits get the coordinates and
    reachability maps of the uncut run. *)
Theorem Clone_resume (n fuel : nat) (git : GitRepo) (repoID : Z)
    (store persisted stored : list RepoVersion)
    (calls_cut calls : list Finalization) (out : option CloneError) :
  Clone n git repoID store = (OutOfFuel, persisted, calls_cut) ->
  Clone fuel git repoID store = (Returned out, stored, calls) ->
  Clone fuel git repoID persisted = (Returned out, stored, calls).
Proof.
  unfold Clone. destruct (buildGraph (Log git)) as [children roots].
  case_decide; [done|].
  destruct (seedRoots git roots (mkBag [])) as [e|b]; [done|].
  destruct (run_loop n git children repoID (initialState b store))
    as [out_n st_n] eqn:Hcut.
  destruct (run_loop fuel git children repoID (initialState b store))
    as [out_f st_f] eqn:Hrun.
  intros [= -> <- _] [= -> <- <-].
  destruct (table_resume git children repoID n _ _ Hcut fuel
              (initialState b (db st_n)) out st_f) as (st' & Hrun' & Hdb & Hfin);
    try done.
  by rewrite Hrun', Hdb, Hfin.
Qed.

(** The statement holds of the diamond cut after R and A: run again, B and
    M get the versions of the run from scratch. *)
Lemma Clone_resume_witness :
  Clone 2 (repo_of_log diamond_log) 7 ([] : list RepoVersion)
  = (OutOfFuel, take 2 diamond_versions, take 2 diamond_calls) ∧
  Clone 5 (repo_of_log diamond_log) 7 (take 2 diamond_versions)
  = (Returned None, diamond_versions, diamond_calls).
Proof.
  assert (Hcut : Clone 2 (repo_of_log diamond_log) 7 ([] : list RepoVersion)
                 = (OutOfFuel, take 2 diamond_versions, take 2 diamond_calls))
    by (vm_compute; reflexivity).
  split; [exact Hcut|].
  apply (Clone_resume 2 5 (repo_of_log diamond_log) 7 []
           (take 2 diamond_versions) diamond_versions
           (take 2 diamond_calls) diamond_calls None Hcut).
  vm_compute. reflexivity.
Defined.

(** ** Reachability along the edges, in a run from scratch *)

Lemma paths_bounded_mono n n' p :
  n <= n' -> paths_bounded n p -> paths_bounded n' p.
Proof.
  intros Hle (Hhuc & Htop). split; [lia|].
  intros c i Hi. destruct (Htop c i Hi). lia.
Qed.

Lemma paths_bounded_get n p c :
  paths_bounded n p ->
  0 <= go_get (topIndices p) c <= n ∧
  (go_get (topIndices p) c ≠ 0 -> 1 <= c <= highestUsedColor p).
Proof.
  intros (Hhuc & Htop). unfold go_get.
  destruct (topIndices p !! c) as [i|] eqn:Hi; simpl.
  - destruct (Htop c i Hi). lia.
  - lia.
Qed.


(** [TakeIndex] keeps the allocator state in shape, whatever the parents'
    versions hold. *)
Lemma TakeIndex_keeps_bounded n p parents :
  0 <= n < maxInt ->
  paths_bounded n p ->
  paths_bounded (n + 1) (TakeIndex p (aggregateReachability parents)).2.
Proof.
  intros Hn Hb.
  set (agg := aggregateReachability parents).
  assert (Hwf : paths_wf p) by (eapply paths_bounded_mono; [|exact Hb]; lia).
  assert (Hpos : ∀ c i, agg !! c = Some i -> 1 <= i)
    by (intros c i; apply aggregateReachability_pos).
  pose proof (TakeIndex_cases p agg Hwf Hpos) as Hcases.
  destruct (TakeIndex_state p agg) as (Htop' & Hhuc' & _).
  cbv zeta in Hcases. set (cov := (TakeIndex p agg).1) in *.
  set (p' := (TakeIndex p agg).2) in *.
  destruct (paths_bounded_get n p (PathColor cov) Hb) as (Hget & Hin).
  destruct Hb as (Hhuc & Htop).
  assert (Hnew : 1 <= PathColor cov <= highestUsedColor p' ∧
                 1 <= PathIndex cov <= n + 1 ∧
                 highestUsedColor p <= highestUsedColor p' <= n + 1).
  { destruct Hcases as [(He & Hi)|(_ & Hc & Hi & _)].
    - unfold extendable in He. pose proof (Hpos _ _ He) as Hge.
      specialize (Hin ltac:(lia)). lia.
    - lia. }
  split; [lia|]. intros c i. rewrite Htop'.
  intros [[<- <-]|[_ Hc]]%lookup_insert_Some; [lia|].
  destruct (Htop c i Hc). lia.
Qed.

Section LoopAllocator.

Context {DB : Type} `{Store : RepoVersionStore DB}.
Variable git : GitRepo.
Variable children : gmap N (list N).
Variable repoID : Z.

Lemma loop_body_paths_bounded n st st' err :
  0 <= n < maxInt ->
  paths_bounded n (paths st) ->
  loop_body git children repoID st = (st', err) ->
  paths_bounded (n + 1) (paths st').
Proof.
  intros Hn Hb. unfold loop_body.
  destruct (pop (toBeProcessed st)) as [[c b]|].
  2: { intros [= <- _]. eapply paths_bounded_mono; [|exact Hb]. lia. }
  destruct (lookupParents (db st) repoID (ParentHashes c) []) as [e|parents].
  { intros [= <- _]. eapply paths_bounded_mono; [|exact Hb]. lia. }
  destruct (makeVersion_fields repoID c (paths st) parents) as (_ & _ & _ & _ & Hp').
  pose proof (TakeIndex_keeps_bounded n (paths st) parents Hn Hb) as Hb'.
  rewrite <- Hp' in Hb'.
  destruct (makeVersion repoID c (paths st) parents) as [v p']. simpl in Hb'.
  destruct (CreateIfNotExists (db st) v) as [db' [e|]]; [by intros [= <- _]|].
  destruct (addReadyChildren git _ _ b); by intros [= <- _].
Qed.

(** After [n] turns from the empty allocator state, the allocator state is
    bounded by [n]: it has room below [maxInt] as long as the run has made
    fewer than [maxInt] turns. *)
Lemma turns_paths_bounded n st st' k :
  turns git children repoID n st st' ->
  0 <= k -> k + Z.of_nat n <= maxInt ->
  paths_bounded k (paths st) ->
  paths_bounded (k + Z.of_nat n) (paths st').
Proof.
  intros Hturns. revert k.
  induction Hturns as [st|n st st1 st2 _ Hbody _ IH]; intros k Hk Hle Hb.
  - by rewrite Z.add_0_r.
  - replace (k + Z.of_nat (S n)) with ((k + 1) + Z.of_nat n) by lia.
    apply IH; [lia|lia|].
    eapply loop_body_paths_bounded; [|exact Hb|exact Hbody]. lia.
Qed.

End LoopAllocator.

(** The allocator state of a run of [Clone], fewer than [maxInt] turns in,
    is as a run leaves it and has room below [maxInt], whatever the store
    is and holds. *)
Lemma Clone_stands_at_paths_wf {DB : Type} `{RepoVersionStore DB}
    git repoID (store : DB) n st :
  Clone_stands_at git repoID store n st ->
  Z.of_nat n < maxInt ->
  paths_wf (paths st).
Proof.
  intros (b & _ & _ & Hturns) Hn.
  eapply paths_bounded_mono;
    [|eapply (turns_paths_bounded _ _ _ _ _ _ 0 Hturns)]; try lia.
  split; [simpl; lia|]. intros c i Hi. simpl in Hi.
  by apply lookup_empty_Some in Hi.
Qed.

Section FromScratch.

Variable git : GitRepo.
Variable children : gmap N (list N).
Variable repoID : Z.

Local Abbreviation sbody := (@loop_body (list RepoVersion) TableStore git children repoID).
Local Abbreviation srun fuel := (@run_loop (list RepoVersion) TableStore fuel git children repoID).




End FromScratch.



(** ** A second branch over the versions of a first one *)


(** The second branch is a strictly linear history of four commits, and
    its run over the versions of the first branch gives them three colours:
    1 and 4 get colour 1, 5 gets colour 2 and 7 gets colour 3. *)
Lemma linear_second_branch_counterexample :
  let first := Clone 7 (repo_of_log first_branch_log) 7 ([] : list RepoVersion) in
  let second := Clone 5 (repo_of_log second_branch_log) 7 first.1.2 in
  second_branch_log = reverse (linear_history [1; 4; 5; 7]%N) ∧
  first.1.1 = Returned None ∧ second.1.1 = Returned None ∧
  (fun f => (ExternalID (fin_version f), PathCoverage (fin_version f))) <$> second.2
  = [(1%N, mkCoverage 1 1); (4%N, mkCoverage 1 2);
     (5%N, mkCoverage 2 1); (7%N, mkCoverage 3 1)].
Proof.
  split; [done|]. split; [by vm_compute|]. split; by vm_compute.
Qed.

(** ** Linear histories *)

Lemma chain_versions_snoc repoID pre h :
  chain_versions repoID (pre ++ [h])
  = chain_versions repoID pre ++ [chain_version repoID (length pre) h].
Proof.
  unfold chain_versions. rewrite imap_app. simpl.
  by rewrite Nat.add_0_r.
Qed.

Lemma chain_versions_elem repoID hs v :
  v ∈ chain_versions repoID hs -> RepoID v = repoID ∧ ExternalID v ∈ hs.
Proof.
  unfold chain_versions. intros (i & h & -> & Hi)%elem_of_lookup_imap.
  split; [done|]. simpl. by eapply list_elem_of_lookup_2.
Qed.

Lemma chain_lookup_absent repoID store pre h :
  (∀ v, v ∈ store -> RepoID v ≠ repoID) ->
  h ∉ pre ->
  table_lookup (store ++ chain_versions repoID pre) repoID h = None.
Proof.
  intros Hfresh Hh. apply table_lookup_None. intros v Hv [Hr He].
  apply elem_of_app in Hv as [Hv|Hv]; [by destruct (Hfresh v Hv)|].
  apply chain_versions_elem in Hv as [_ Hin]. by rewrite He in Hin.
Qed.

Lemma chain_lookup_last repoID store pre p :
  (∀ v, v ∈ store -> RepoID v ≠ repoID) ->
  NoDup (pre ++ [p]) ->
  table_lookup (store ++ chain_versions repoID (pre ++ [p])) repoID p
  = Some (chain_version repoID (length pre) p).
Proof.
  intros Hfresh Hnd. rewrite chain_versions_snoc, app_assoc, table_lookup_app.
  rewrite chain_lookup_absent; [|done|].
  - unfold table_lookup. simpl.
    replace (has_key repoID p (chain_version repoID (length pre) p)) with true;
      [done|].
    symmetry. by apply has_key_true.
  - apply NoDup_app in Hnd as (_ & Hdisj & _). intros Hin.
    apply (Hdisj p Hin). left.
Qed.

Lemma aggregateReachability_nil : aggregateReachability [] = ∅.
Proof. reflexivity. Qed.

Lemma aggregateReachability_chain repoID i h :
  aggregateReachability [chain_version repoID i h] = {[1 := Z.of_nat i + 1]}.
Proof.
  unfold aggregateReachability, aggregate_parent. simpl.
  rewrite map_fold_singleton. unfold aggregate_entry.
  rewrite go_get_None by done.
  destruct (Z.ltb_spec 0 (Z.of_nat i + 1)); [|lia].
  by rewrite insert_empty.
Qed.

Lemma TakeIndex_chain_first :
  TakeIndex (mkPaths ∅ 0) ∅ = (mkCoverage 1 1, mkPaths {[1 := 1]} 1).
Proof. vm_compute. reflexivity. Qed.

Lemma TakeIndex_chain_next (k : Z) :
  1 <= k < maxInt ->
  TakeIndex (mkPaths {[1 := k]} 1) {[1 := k]}
  = (mkCoverage 1 (k + 1), mkPaths {[1 := k + 1]} 1).
Proof.
  intros Hk. pose proof maxInt_val as HM. pose proof minInt_val as Hm.
  unfold TakeIndex. cbn [topIndices highestUsedColor].
  rewrite map_fold_singleton. unfold lowest_entry.
  rewrite (go_get_Some _ 1 k) by apply lookup_singleton_eq.
  rewrite (bool_decide_eq_true_2 (k = k)) by done.
  destruct (Z.ltb_spec 1 maxInt); [|lia].
  rewrite (bool_decide_eq_false_2 (1 = maxInt)) by lia. cbv iota.
  rewrite !(go_get_Some _ 1 k) by apply lookup_singleton_eq.
  rewrite int_add_small by lia. rewrite insert_singleton_eq.
  by destruct (Z.ltb_spec 1 1); [lia|].
Qed.

Lemma chain_makeVersion repoID pre h :
  Z.of_nat (length pre) < maxInt ->
  makeVersion repoID (mkCommit h (chain_parent pre)) (chain_paths (length pre))
              (chain_parent_versions repoID pre)
  = (chain_version repoID (length pre) h, chain_paths (S (length pre))).
Proof.
  intros Hk. unfold chain_parent_versions.
  destruct (last pre) as [p|] eqn:Hlast.
  - apply last_Some in Hlast as [pre' ->].
    rewrite length_app in *. cbn [length] in *. rewrite Nat.add_1_r in *.
    replace (S (length pre') - 1)%nat with (length pre') by lia.
    unfold makeVersion. rewrite aggregateReachability_chain.
    unfold chain_paths.
    replace (Z.of_nat (S (length pre'))) with (Z.of_nat (length pre') + 1)
      by lia.
    rewrite TakeIndex_chain_next by lia. cbn [PathColor PathIndex Hash].
    rewrite insert_singleton_eq. unfold chain_version.
    repeat f_equal; lia.
  - apply last_None in Hlast. subst pre. unfold makeVersion.
    cbn [length chain_paths].
    rewrite aggregateReachability_nil, TakeIndex_chain_first.
    cbn [PathColor PathIndex Hash]. by rewrite insert_empty.
Qed.

Section LinearLoop.

Variable git : GitRepo.
Variable children : gmap N (list N).
Variable repoID : Z.
Variable store : list RepoVersion.
Variable hs : list N.

Hypothesis hs_NoDup : NoDup hs.
Hypothesis store_fresh : ∀ v, v ∈ store -> RepoID v ≠ repoID.
Hypothesis hs_bound : Z.of_nat (length hs) <= maxInt.
(** Each commit of the chain has the next one as its only child. *)
Hypothesis chain_children :
  ∀ pre h todo, hs = pre ++ h :: todo -> children_of children h = take 1 todo.
Hypothesis chain_object :
  ∀ pre h nxt post, hs = pre ++ h :: nxt :: post ->
                    CommitObject git nxt = Some (mkCommit nxt [h]).

Lemma chain_lookupParents pre h todo :
  hs = pre ++ h :: todo ->
  lookupParents (store ++ chain_versions repoID pre) repoID (chain_parent pre) []
  = inr (chain_parent_versions repoID pre).
Proof.
  intros Hhs. unfold chain_parent, chain_parent_versions.
  destruct (last pre) as [p|] eqn:Hlast; [|done].
  apply last_Some in Hlast as [pre' ->]. simpl.
  rewrite chain_lookup_last; [|done|].
  - rewrite length_app. simpl.
    by replace (length pre' + 1 - 1)%nat with (length pre') by lia.
  - rewrite Hhs in hs_NoDup. by apply NoDup_app in hs_NoDup as (? & _).
Qed.

Lemma chain_turn pre h todo fins :
  hs = pre ++ h :: todo ->
  loop_body git children repoID (chain_after repoID store pre (h :: todo) fins)
  = (chain_after repoID store (pre ++ [h]) todo
       (fins ++ [mkFinalization (chain_version repoID (length pre) h)
                                (chain_parent_versions repoID pre)]),
     None).
Proof.
  intros Hhs.
  assert (Hnd : NoDup (pre ++ h :: todo)) by (by rewrite <- Hhs).
  apply NoDup_app in Hnd as (Hpre & Hdisj & Hrest).
  apply NoDup_cons in Hrest as (Hh & Htodo).
  assert (Hlen : Z.of_nat (length pre) < maxInt).
  { rewrite Hhs, length_app in hs_bound. simpl in hs_bound. lia. }
  pose proof (table_loop_body git children repoID
                (chain_after repoID store pre (h :: todo) fins)
                (mkCommit h (chain_parent pre)) (mkBag [])
                (chain_parent_versions repoID pre) eq_refl
                (chain_lookupParents pre h todo Hhs)) as Hbody.
  cbv zeta in Hbody. cbn [paths db finalized processed chain_after] in Hbody.
  rewrite chain_makeVersion in Hbody by done. cbn [fst snd Hash] in Hbody.
  rewrite (chain_children pre h todo Hhs) in Hbody.
  rewrite table_create_absent in Hbody.
  2: { apply chain_lookup_absent; [done|]. intros Hin. by apply (Hdisj h Hin); left. }
  rewrite <- app_assoc, <- chain_versions_snoc in Hbody.
  assert (Hset : {[h]} ∪ list_to_set pre = (list_to_set (pre ++ [h]) : gset N)).
  { apply set_eq. intros x.
    rewrite elem_of_union, elem_of_singleton, !elem_of_list_to_set.
    rewrite elem_of_app, list_elem_of_singleton. tauto. }
  rewrite Hset in Hbody. rewrite Hbody. unfold chain_after.
  rewrite length_app. simpl length. rewrite Nat.add_1_r.
  destruct todo as [|nxt post]; [done|].
  cbn [take addReadyChildren].
  apply NoDup_cons in Htodo as (Hnxt & _).
  rewrite bool_decide_eq_false_2.
  2: { rewrite elem_of_list_to_set.
       intros [Hin|Hin%list_elem_of_singleton]%elem_of_app.
       - apply (Hdisj nxt Hin). right. left.
       - subst nxt. apply Hh. left. }
  rewrite (chain_object pre h nxt post Hhs). cbn [ParentHashes].
  unfold chParentsProcessed. cbn [forallb].
  rewrite bool_decide_eq_true_2.
  2: { rewrite elem_of_list_to_set. apply elem_of_app. right. left. }
  cbn [andb]. unfold chain_parent. rewrite last_snoc. done.
Qed.

Lemma chain_run todo pre fins j :
  hs = pre ++ todo ->
  run_loop (length todo + 1 + j) git children repoID (chain_after repoID store pre todo fins)
  = (Returned None, chain_after repoID store hs [] (fins ++ chain_calls repoID pre todo)).
Proof.
  revert pre fins. induction todo as [|h todo IH]; intros pre fins Hhs.
  - rewrite app_nil_r in Hhs. subst pre. simpl. by rewrite app_nil_r.
  - cbn [length Nat.add run_loop].
    replace (notEmpty (toBeProcessed (chain_after repoID store pre (h :: todo) fins)))
      with true by done.
    rewrite (chain_turn pre h todo fins Hhs).
    rewrite IH by (by rewrite <- app_assoc).
    cbn [chain_calls]. by rewrite <- app_assoc.
Qed.

End LinearLoop.

(** ** The graph of a log *)

Lemma children_of_add_child child children p h :
  children_of (add_child child children p) h
  = children_of children h ++ (if decide (p = h) then [child] else []).
Proof.
  unfold add_child, children_of. case_decide as Hp.
  - subst. by rewrite lookup_insert_eq.
  - rewrite lookup_insert_ne by done. by rewrite app_nil_r.
Qed.

Lemma foldl_add_child child phs children h :
  children_of (foldl (add_child child) children phs) h
  = children_of children h ++ ((fun _ => child) <$> filter (fun x => x = h) phs).
Proof.
  revert children. induction phs as [|p phs IH]; intros children; simpl.
  - by rewrite app_nil_r.
  - rewrite IH, children_of_add_child, filter_cons.
    case_decide; simpl; rewrite <- app_assoc; done.
Qed.

Lemma foldl_visit_commit_children log g h :
  children_of (foldl visit_commit g log).1 h
  = children_of g.1 h ++ (log ≫= child_slots h).
Proof.
  revert g. induction log as [|c log IH]; intros g; simpl.
  - by rewrite app_nil_r.
  - rewrite IH. unfold visit_commit. cbn [fst snd].
    by rewrite foldl_add_child, <- app_assoc.
Qed.

Lemma buildGraph_children log h :
  children_of (buildGraph log).1 h = log ≫= child_slots h.
Proof. unfold buildGraph. by rewrite foldl_visit_commit_children. Qed.

Lemma find_by_hash (log : list Commit) c :
  NoDup (Hash <$> log) -> c ∈ log ->
  find (fun c' => bool_decide (Hash c' = Hash c)) log = Some c.
Proof.
  induction log as [|c0 log IH]; intros Hnd Hin; [by apply elem_of_nil in Hin|].
  simpl in *. apply NoDup_cons in Hnd as (Hc0 & Hnd).
  apply elem_of_cons in Hin as [->|Hin].
  - by rewrite bool_decide_eq_true_2.
  - rewrite bool_decide_eq_false_2; [by apply IH|].
    intros Heq. apply Hc0. rewrite Heq. apply list_elem_of_fmap. by exists c.
Qed.

(** ** The graph of a linear history *)

Lemma linear_from_hashes parents hs : Hash <$> linear_from parents hs = hs.
Proof.
  revert parents. induction hs as [|h hs IH]; intros parents; simpl; [done|].
  by rewrite IH.
Qed.

Lemma linear_from_roots p hs : filter is_root (linear_from [p] hs) = [].
Proof.
  revert p. induction hs as [|h hs IH]; intros p; simpl; [done|].
  rewrite filter_cons. rewrite decide_False by (unfold is_root; simpl; lia).
  apply IH.
Qed.

Lemma linear_history_roots h hs :
  filter is_root (linear_history (h :: hs)) = [mkCommit h []].
Proof.
  unfold linear_history. simpl. rewrite filter_cons.
  rewrite decide_True by done. by rewrite linear_from_roots.
Qed.

Lemma linear_from_elem parents pre h nxt post :
  mkCommit nxt [h] ∈ linear_from parents (pre ++ h :: nxt :: post).
Proof.
  revert parents. induction pre as [|a pre IH]; intros parents; simpl.
  - right. left.
  - right. apply IH.
Qed.

Lemma filter_eq_absent (h : N) (l : list N) :
  h ∉ l -> filter (fun x => x = h) l = [].
Proof.
  induction l as [|a l IH]; intros Hh; [done|].
  rewrite filter_cons, decide_False.
  - apply IH. intros Hin. apply Hh. by right.
  - intros ->. apply Hh. left.
Qed.

Lemma child_slots_absent h c : h ∉ ParentHashes c -> child_slots h c = [].
Proof. intros Hh. unfold child_slots. by rewrite filter_eq_absent. Qed.

Lemma linear_slots_none parents hs h :
  h ∉ parents -> h ∉ hs -> linear_from parents hs ≫= child_slots h = [].
Proof.
  revert parents. induction hs as [|a hs IH]; intros parents Hp Hh; simpl; [done|].
  rewrite IH.
  - by rewrite child_slots_absent.
  - intros Ha%list_elem_of_singleton. subst a. apply Hh. left.
  - intros Hin. apply Hh. by right.
Qed.

Lemma linear_slots parents pre h todo :
  h ∉ parents -> NoDup (pre ++ h :: todo) ->
  linear_from parents (pre ++ h :: todo) ≫= child_slots h = take 1 todo.
Proof.
  revert parents. induction pre as [|a pre IH]; intros parents Hp Hnd.
  - simpl. apply NoDup_cons in Hnd as (Hh & Hnd).
    assert (Hown : child_slots h (mkCommit h parents) = [])
      by (by apply child_slots_absent).
    rewrite Hown. simpl. destruct todo as [|nxt post]; [done|]. simpl.
    apply NoDup_cons in Hnd as (Hnxt & _).
    rewrite linear_slots_none.
    + unfold child_slots. simpl. rewrite filter_cons, decide_True by done.
      by rewrite filter_nil.
    + intros Hin%list_elem_of_singleton. subst nxt. apply Hh. left.
    + intros Hin. apply Hh. by right.
  - simpl in *. apply NoDup_cons in Hnd as (Ha & Hnd).
    rewrite IH; [|intros Hin%list_elem_of_singleton; subst a; apply Ha;
                  apply elem_of_app; right; left|done].
    by rewrite child_slots_absent.
Qed.

Lemma chain_calls_versions repoID pre hs :
  fin_version <$> chain_calls repoID pre hs
  = imap (fun i => chain_version repoID (length pre + i)) hs.
Proof.
  revert pre. induction hs as [|h hs IH]; intros pre; simpl; [done|].
  rewrite IH, Nat.add_0_r. f_equal. apply imap_ext. intros i x _. simpl.
  rewrite length_app. simpl. f_equal. lia.
Qed.

(** C6, as the code has it. A strictly linear history of N commits (hashes
    [hs], oldest first; N at least 1 and at most [maxInt], the largest
    length a Go slice can have), yielded by the log in any order, ingested
    into a store that holds no version of the repository yet: [Clone]
    returns without error, passes the N commits to [CreateIfNotExists] in
    the order of the history, and gives the commit at place [i] (from 0)
    colour 1 and index [i + 1], with the reachability map [{1 : i + 1}]:
    one colour for all, indices 1, 2, ..., N. *)
Theorem linear_history_one_color (hs : list N) (log : list Commit)
    (repoID : Z) (store : list RepoVersion) (k : nat) :
  hs ≠ [] ->
  NoDup hs ->
  log ≡ₚ linear_history hs ->
  (∀ v, v ∈ store -> RepoID v ≠ repoID) ->
  Z.of_nat (length hs) <= maxInt ->
  let result := Clone (length hs + 1 + k) (repo_of_log log) repoID store in
  result.1 = (Returned None, store ++ chain_versions repoID hs) ∧
  length result.2 = length hs ∧
  ∀ i h, hs !! i = Some h ->
         fin_version <$> result.2 !! i
         = Some (mkRepoVersion repoID h (mkCoverage 1 (Z.of_nat i + 1))
                               {[1 := Z.of_nat i + 1]}).
Proof.
  intros Hne Hnd Hperm Hfresh Hbound.
  assert (Hhashes : NoDup (Hash <$> log)).
  { rewrite Hperm. unfold linear_history. by rewrite linear_from_hashes. }
  assert (Hobj : ∀ c, c ∈ linear_history hs ->
                      CommitObject (repo_of_log log) (Hash c) = Some c).
  { intros c Hc. simpl. apply find_by_hash; [done|]. by rewrite Hperm. }
  assert (Hchildren : ∀ pre h todo, hs = pre ++ h :: todo ->
            children_of (buildGraph log).1 h = take 1 todo).
  { intros pre h todo Hhs. rewrite buildGraph_children.
    assert (Hp : log ≫= child_slots h ≡ₚ take 1 todo).
    { rewrite Hperm. unfold linear_history. rewrite Hhs.
      rewrite linear_slots; [done|by apply not_elem_of_nil|by rewrite <- Hhs]. }
    destruct todo as [|nxt post]; simpl in *.
    - by apply Permutation_nil_r.
    - by apply Permutation_singleton_r. }
  assert (Hobject : ∀ pre h nxt post, hs = pre ++ h :: nxt :: post ->
            CommitObject (repo_of_log log) nxt = Some (mkCommit nxt [h])).
  { intros pre h nxt post Hhs. apply (Hobj (mkCommit nxt [h])).
    rewrite Hhs. apply linear_from_elem. }
  destruct hs as [|h1 tl]; [done|].
  assert (Hroots : (buildGraph log).2 = [h1]).
  { rewrite buildGraph_roots.
    assert (Hf : filter is_root log ≡ₚ [mkCommit h1 []]).
    { rewrite Hperm. by rewrite linear_history_roots. }
    apply Permutation_singleton_r in Hf. by rewrite Hf. }
  assert (Hrun := chain_run (repo_of_log log) (buildGraph log).1 repoID store
                    (h1 :: tl) Hnd Hfresh Hbound Hchildren Hobject
                    (h1 :: tl) [] [] k eq_refl).
  pose proof (Hobj (mkCommit h1 []) ltac:(left)) as Hroot. cbn [Hash] in Hroot.
  intros result. unfold result, Clone.
  change (Log (repo_of_log log)) with log.
  rewrite (surjective_pairing (buildGraph log)), Hroots.
  rewrite decide_False by done. cbn [seedRoots]. rewrite Hroot.
  replace (initialState (add (mkBag []) (mkCommit h1 [])) store)
    with (chain_after repoID store [] (h1 :: tl) []).
  2: { unfold chain_after, initialState. simpl. by rewrite app_nil_r. }
  rewrite Hrun. cbn [fst snd db finalized chain_after app].
  split; [done|]. split.
  - rewrite <- (length_fmap fin_version), chain_calls_versions. apply length_imap.
  - intros i h Hi.
    rewrite <- list_lookup_fmap, chain_calls_versions, list_lookup_imap, Hi. done.
Qed.

(** The statement holds of a history of three commits, yielded newest
    first. *)
Lemma linear_history_one_color_witness :
  let result :=
    Clone 4 (repo_of_log [mkCommit 3 [2%N]; mkCommit 2 [1%N]; mkCommit 1 []])
          7 ([] : list RepoVersion) in
  result.1 = (Returned None,
              [mkRepoVersion 7 1 (mkCoverage 1 1) {[1 := 1]};
               mkRepoVersion 7 2 (mkCoverage 1 2) {[1 := 2]};
               mkRepoVersion 7 3 (mkCoverage 1 3) {[1 := 3]}]) ∧
  fin_version <$> result.2 !! 2%nat
  = Some (mkRepoVersion 7 3 (mkCoverage 1 3) {[1 := 3]}).
Proof.
  assert (Hnd : NoDup [1%N; 2%N; 3%N]).
  { repeat (apply NoDup_cons; split;
            [intros Hin; repeat (apply elem_of_cons in Hin as [Hin|Hin];
                                 [discriminate|]); by apply elem_of_nil in Hin|]).
    apply NoDup_nil_2. }
  assert (Hperm : [mkCommit 3 [2%N]; mkCommit 2 [1%N]; mkCommit 1 []]
                  ≡ₚ linear_history [1%N; 2%N; 3%N]).
  { apply (reverse_Permutation (linear_history [1%N; 2%N; 3%N])). }
  destruct (linear_history_one_color [1%N; 2%N; 3%N]
              [mkCommit 3 [2%N]; mkCommit 2 [1%N]; mkCommit 1 []]
              7 [] 0 ltac:(done) Hnd Hperm
              ltac:(intros v Hv; by apply elem_of_nil in Hv)
              ltac:(rewrite maxInt_val; simpl; lia))
    as (Hres & _ & Hall).
  split; [exact Hres|]. exact (Hall 2%nat 3%N eq_refl).
Defined.

(** ** The bag and the graph, in full *)

Lemma pop_Some b c b' : pop b = Some (c, b') -> stack b = stack b' ++ [c].
Proof.
  unfold pop. destruct (last (stack b)) as [x|] eqn:Hlast; [|done].
  intros [= <- <-]. apply last_Some in Hlast as [l' Hl]. rewrite Hl. simpl.
  rewrite length_app. simpl. rewrite Nat.add_sub.
  by rewrite take_app_length.
Qed.

(** X1. The bag is a stack. [pop] after [add] gives back the commit added
    and the bag as it was before, and a bag is not empty after [add];
    [pop] fails (the source panics) exactly on the bags for which
    [notEmpty] is false; and adding back what [pop] took gives the bag
    popped from. *)
Theorem bag_is_a_stack (b : bag) (c : Commit) :
  pop (add b c) = Some (c, b) ∧
  notEmpty (add b c) = true ∧
  (notEmpty b = false ↔ pop b = None) ∧
  (∀ c' b', pop b = Some (c', b') -> add b' c' = b).
Proof.
  split; [apply pop_add|]. split; [|split].
  - unfold notEmpty, add. cbn. apply bool_decide_eq_true.
    rewrite length_app. cbn. lia.
  - unfold notEmpty, pop. rewrite bool_decide_eq_false. split.
    + intros Hlen. destruct (stack b) as [|x l]; [done|]. cbn in Hlen. lia.
    + destruct (last (stack b)) as [x|] eqn:Hlast; [done|].
      apply last_None in Hlast. rewrite Hlast. cbn. lia.
  - intros c' b' Hpop. apply pop_Some in Hpop. destruct b as [l].
    unfold add. cbn in *. by rewrite Hpop.
Qed.

(** X2. The roots that the callback of [iter.ForEach] collects are the
    hashes of the commits of the log that have no parents, in the order of
    the log and once for each time the log yields such a commit; the roots
    of a log in two parts are the roots of the first part followed by those
    of the second. *)
Theorem graph_roots (log : list Commit) :
  (buildGraph log).2 = Hash <$> filter is_root log ∧
  ∀ log', (buildGraph (log ++ log')).2 = (buildGraph log).2 ++ (buildGraph log').2.
Proof.
  split; [apply buildGraph_roots|]. intros log'.
  by rewrite !buildGraph_roots, filter_app, fmap_app.
Qed.

Lemma children_elem log h ch :
  ch ∈ children_of (buildGraph log).1 h ↔
  ∃ c, c ∈ log ∧ Hash c = ch ∧ h ∈ ParentHashes c.
Proof.
  rewrite buildGraph_children, list_elem_of_bind. unfold child_slots.
  split.
  - intros (c & Hslot & Hc). apply list_elem_of_fmap in Hslot as (x & -> & Hx).
    apply list_elem_of_filter in Hx as [-> Hx]. by exists c.
  - intros (c & Hc & <- & Hh). exists c. split; [|done].
    apply list_elem_of_fmap. exists h. split; [done|].
    by apply list_elem_of_filter.
Qed.

Lemma child_slots_distinct h c :
  NoDup (ParentHashes c) ->
  child_slots h c = if decide (h ∈ ParentHashes c) then [Hash c] else [].
Proof.
  unfold child_slots. induction 1 as [|x l Hnin Hnd IH].
  { rewrite filter_nil. by destruct (decide (h ∈ [])) as [Hin%elem_of_nil|]. }
  rewrite filter_cons. destruct (decide (x = h)) as [->|Hne].
  - rewrite decide_True by (by left).
    by rewrite (filter_eq_absent h l Hnin).
  - rewrite IH. destruct (decide (h ∈ l)) as [Hin|Hnin'].
    + by rewrite decide_True by (by right).
    + rewrite decide_False; [done|]. by intros [->|?]%elem_of_cons.
Qed.

Lemma children_NoDup log h :
  distinct_log log -> NoDup (children_of (buildGraph log).1 h).
Proof.
  rewrite buildGraph_children. intros [Hnd Hpar].
  induction log as [|c log IH]; simpl; [constructor|].
  rewrite fmap_cons in Hnd. apply NoDup_cons in Hnd as [Hnin Hnd].
  assert (Htail : NoDup (log ≫= child_slots h)).
  { apply IH; [done|]. intros c' Hc'. apply Hpar. by right. }
  rewrite child_slots_distinct by (apply Hpar; by left).
  destruct (decide (h ∈ ParentHashes c)); [|done].
  simpl. constructor; [|done].
  intros (c' & Hslot & Hc')%list_elem_of_bind.
  apply list_elem_of_fmap in Hslot as (x & Heq & _). apply Hnin.
  apply list_elem_of_fmap. by exists c'.
Qed.

(** X3. The [children] map that the callback of [iter.ForEach] builds:
    [children[h]] holds exactly the hashes of the commits of the log that
    name [h] among their parents; it lists them in the order of the log,
    once for each time [h] stands among the parents of the commit; it is
    empty for a hash that no commit names as a parent; and for a log of
    distinct commits it is the list of the commits of the log with the
    parent [h], each once. *)
Theorem graph_children (log : list Commit) (h : N) :
  (∀ ch, ch ∈ children_of (buildGraph log).1 h ↔
         ∃ c, c ∈ log ∧ Hash c = ch ∧ h ∈ ParentHashes c) ∧
  children_of (buildGraph log).1 h = log ≫= child_slots h ∧
  ((∀ c, c ∈ log -> h ∉ ParentHashes c) -> children_of (buildGraph log).1 h = []) ∧
  (distinct_log log ->
   children_of (buildGraph log).1 h
   = Hash <$> filter (fun c => h ∈ ParentHashes c) log).
Proof.
  split; [intros ch; apply children_elem|]. split; [apply buildGraph_children|].
  rewrite buildGraph_children. split.
  - intros Hno. induction log as [|c log IH]; [done|]. cbn.
    rewrite child_slots_absent by (apply Hno; by left).
    apply IH. intros c' Hc'. apply Hno. by right.
  - intros [_ Hpar]. induction log as [|c log IH]; [done|].
    change ((c :: log) ≫= child_slots h)
      with (child_slots h c ++ (log ≫= child_slots h)).
    rewrite child_slots_distinct by (apply Hpar; by left).
    rewrite filter_cons, IH by (intros c' Hc'; apply Hpar; by right).
    by destruct (decide (h ∈ ParentHashes c)).
Qed.

(** ** aggregateReachability, whatever the parents hold *)

Lemma merge_entry_pos o oi :
  (∀ v, o = Some v -> 1 <= v) -> ∀ v, merge_entry o oi = Some v -> 1 <= v.
Proof.
  intros Ho v. destruct oi as [i|]; simpl; [|by apply Ho].
  destruct (Z.ltb_spec (default 0 o) i) as [Hlt|Hge]; [|by apply Ho].
  intros [= <-]. destruct o as [v'|]; simpl in Hlt; [|lia].
  specialize (Ho v' eq_refl). lia.
Qed.

(** The fold is the maximum of the entries above zero that it meets. *)
Lemma foldl_merge_entry_any vals o :
  (∀ v, o = Some v -> 1 <= v) ->
  match foldl merge_entry o vals with
  | None => o = None ∧ ∀ i, Some i ∈ vals -> i <= 0
  | Some m =>
    1 <= m ∧ (o = Some m ∨ Some m ∈ vals) ∧
    (∀ v, o = Some v -> v <= m) ∧ (∀ i, Some i ∈ vals -> i <= m)
  end.
Proof.
  revert o. induction vals as [|oi vals IH]; intros o Ho; simpl.
  { destruct o as [v|].
    - split; [by apply Ho|]. split; [by left|].
      split; [by intros ? [= ->]|]. intros i Hi. by apply elem_of_nil in Hi.
    - split; [done|]. intros i Hi. by apply elem_of_nil in Hi. }
  specialize (IH (merge_entry o oi) (merge_entry_pos o oi Ho)).
  destruct (foldl merge_entry (merge_entry o oi) vals) as [m|].
  - destruct IH as (Hm & Hin & Hub1 & Hub2). split; [done|].
    destruct oi as [i|]; simpl in Hin, Hub1.
    2: { split; [destruct Hin as [Hin|Hin]; [by left|right; by right]|].
         split; [done|]. intros i [[=]|Hi]%elem_of_cons. by apply Hub2. }
    destruct (Z.ltb_spec (default 0 o) i) as [Hlt|Hge].
    + specialize (Hub1 i eq_refl). split; [|split].
      * right. destruct Hin as [[= ->]|Hin]; [by left|by right].
      * intros v ->. simpl in Hlt. lia.
      * intros j [[= ->]|Hj]%elem_of_cons; [done|by apply Hub2].
    + split; [|split; [done|]].
      * destruct Hin as [Hin|Hin]; [by left|right; by right].
      * intros j [[= ->]|Hj]%elem_of_cons; [|by apply Hub2].
        destruct o as [v|]; simpl in Hge; [specialize (Hub1 v eq_refl)|]; lia.
  - destruct IH as (Hnone & Hnot). destruct oi as [i|]; simpl in Hnone.
    + destruct (Z.ltb_spec (default 0 o) i) as [Hlt|Hge]; [done|].
      subst o. simpl in Hge. split; [done|].
      intros j [[= ->]|Hj]%elem_of_cons; [done|by apply Hnot].
    + split; [done|]. intros j [[=]|Hj]%elem_of_cons. by apply Hnot.
Qed.

(** X4. [aggregateReachability] on any parents, whatever values their maps
    hold: an entry of the result is at least 1, is the value some parent
    carries for the colour, and no parent carries a larger one; a colour
    has no entry exactly when every value the parents carry for it is zero
    or negative (such values are dropped, since the comparison is against
    the zero value of a missing key). *)
Theorem aggregateReachability_any_values (parents : list RepoVersion) (c : Z) :
  match aggregateReachability parents !! c with
  | Some m =>
    1 <= m ∧ (∃ p, p ∈ parents ∧ Reachability p !! c = Some m) ∧
    ∀ p i, p ∈ parents -> Reachability p !! c = Some i -> i <= m
  | None => ∀ p i, p ∈ parents -> Reachability p !! c = Some i -> i <= 0
  end.
Proof.
  rewrite aggregateReachability_lookup.
  assert (Hnone : ∀ v, @None Z = Some v -> 1 <= v) by done.
  pose proof (foldl_merge_entry_any
                ((fun p => Reachability p !! c) <$> parents) None Hnone) as Hfold.
  destruct (foldl merge_entry None _) as [m|].
  - destruct Hfold as (Hm & [Hin|Hin] & _ & Hub); [done|].
    apply list_elem_of_fmap in Hin as (p & Hi & Hp).
    split; [done|]. split; [by exists p|].
    intros q i Hq Hqi. apply Hub, list_elem_of_fmap. by exists q.
  - destruct Hfold as (_ & Hnot). intros p i Hp Hi.
    apply Hnot, list_elem_of_fmap. by exists p.
Qed.

Lemma merge_entry_union o oi :
  (∀ v, o = Some v -> 1 <= v) ->
  merge_entry o oi
  = union_with (fun i j => Some (Z.max i j)) o (merge_entry None oi).
Proof.
  intros Ho. destruct oi as [i|]; simpl; [|by destruct o].
  destruct o as [v|]; simpl; [|by destruct (0 <? i)].
  specialize (Ho v eq_refl).
  destruct (Z.ltb_spec v i), (Z.ltb_spec 0 i); simpl; try lia; f_equal; lia.
Qed.

Lemma foldl_merge_entry_union vals o :
  (∀ v, o = Some v -> 1 <= v) ->
  foldl merge_entry o vals
  = union_with (fun i j => Some (Z.max i j)) o (foldl merge_entry None vals).
Proof.
  revert o. induction vals as [|oi vals IH]; intros o Ho; simpl.
  { by destruct o. }
  rewrite (IH (merge_entry o oi)) by (by apply merge_entry_pos).
  rewrite (IH (merge_entry None oi)) by (by apply merge_entry_pos).
  rewrite (merge_entry_union o oi Ho).
  destruct o as [a|], (merge_entry None oi) as [b|],
    (foldl merge_entry None vals) as [d|]; simpl; try done.
  f_equal. lia.
Qed.

(** X5. Aggregating the parents [ps ++ qs] gives, colour by colour, the
    larger of the entries of the aggregate of [ps] and of the aggregate of
    [qs]; an entry that only one of the two has is taken as it is. *)
Theorem aggregateReachability_app (ps qs : list RepoVersion) :
  aggregateReachability (ps ++ qs)
  = max_entries (aggregateReachability ps) (aggregateReachability qs).
Proof.
  apply map_eq. intros c. unfold max_entries.
  rewrite lookup_union_with, !aggregateReachability_lookup, fmap_app, foldl_app.
  apply foldl_merge_entry_union. intros v. by apply foldl_merge_entry_pos.
Qed.

(** X6. The aggregate of one parent is that parent's reachability map
    without its entries that are zero or negative; it is the parent's map
    itself when all its values are at least 1. A commit with one parent
    inherits the parent's map. *)
Theorem aggregateReachability_single (p : RepoVersion) :
  aggregateReachability [p] = positive_entries (Reachability p) ∧
  ((∀ c i, Reachability p !! c = Some i -> 1 <= i) ->
   aggregateReachability [p] = Reachability p).
Proof.
  assert (Heq : aggregateReachability [p] = positive_entries (Reachability p)).
  { apply map_eq. intros c. unfold positive_entries.
    rewrite aggregateReachability_lookup, map_lookup_filter. cbn.
    destruct (Reachability p !! c) as [i|]; cbn; [|done].
    destruct (Z.ltb_spec 0 i) as [Hlt|Hge].
    - by rewrite option_guard_True.
    - rewrite option_guard_False; [done|]. cbn. lia. }
  split; [done|]. intros Hpos. rewrite Heq. apply map_filter_id.
  intros c i Hi. cbn. specialize (Hpos c i Hi). lia.
Qed.

(** ** pathCoverage.TakeIndex, whatever the state *)

(** X7. [TakeIndex] on any allocator state and any map, overflow included.
    When some extendable colour is below [maxInt], the colour returned is
    the lowest extendable colour. When every extendable colour is [maxInt]
    or above (none at all, or the colour [maxInt] itself, which the loop
    takes for its starting value), the colour returned is
    [highestUsedColor + 1] in [int] arithmetic. The index returned is the
    top index of the colour plus one in [int] arithmetic. After the call
    the colour returned has the index returned as its top index, the top
    index of no other colour has changed, and [highestUsedColor] is the
    larger of its old value and the colour returned. *)
Theorem TakeIndex_any_state (p : pathCoverage) (reachability : gmap Z Z) :
  let cov := (TakeIndex p reachability).1 in
  let p' := (TakeIndex p reachability).2 in
  ((∃ c, extendable p reachability c ∧ c < maxInt) ->
     extendable p reachability (PathColor cov) ∧
     ∀ c, extendable p reachability c -> PathColor cov <= c) ∧
  ((∀ c, extendable p reachability c -> maxInt <= c) ->
     PathColor cov = int_add (highestUsedColor p) 1) ∧
  PathIndex cov = int_add (go_get (topIndices p) (PathColor cov)) 1 ∧
  topIndices p' !! PathColor cov = Some (PathIndex cov) ∧
  (∀ c, c ≠ PathColor cov -> topIndices p' !! c = topIndices p !! c) ∧
  highestUsedColor p' = Z.max (highestUsedColor p) (PathColor cov).
Proof.
  intros cov p'.
  destruct (TakeIndex_color p reachability) as (Hsome & Hnone).
  destruct (TakeIndex_state p reachability) as (Htop & Hhuc & Hidx).
  fold cov in Hsome, Hnone, Htop, Hhuc, Hidx. fold p' in Htop, Hhuc.
  split; [exact Hsome|]. split; [exact Hnone|]. split; [exact Hidx|].
  rewrite Htop. split; [apply lookup_insert_eq|]. split; [|exact Hhuc].
  intros c Hc. by apply lookup_insert_ne.
Qed.

(** X8. When [highestUsedColor] is [maxInt] and no colour below [maxInt] is
    extendable, [TakeIndex] wraps around: the colour it returns is the
    smallest [int], a negative number, [highestUsedColor] stays at
    [maxInt], and the index is one above whatever top index that negative
    colour has. *)
Theorem TakeIndex_colors_used_up (p : pathCoverage) (reachability : gmap Z Z) :
  highestUsedColor p = maxInt ->
  (∀ c, extendable p reachability c -> maxInt <= c) ->
  let cov := (TakeIndex p reachability).1 in
  let p' := (TakeIndex p reachability).2 in
  PathColor cov = minInt ∧ highestUsedColor p' = maxInt ∧
  PathIndex cov = int_add (go_get (topIndices p) minInt) 1.
Proof.
  intros Hhuc Hnone cov p'.
  destruct (TakeIndex_color p reachability) as (_ & Hcol).
  destruct (TakeIndex_state p reachability) as (_ & Hhuc' & Hidx).
  fold cov in Hcol, Hhuc', Hidx. fold p' in Hhuc'.
  specialize (Hcol Hnone). rewrite Hhuc, int_add_maxInt_1 in Hcol.
  rewrite Hcol in Hidx, Hhuc'. split; [done|]. split; [|done].
  rewrite Hhuc', Hhuc, minInt_val, maxInt_val. lia.
Qed.

(** The statement holds of the allocator without top indices whose highest
    colour is [maxInt]. *)
Lemma TakeIndex_colors_used_up_witness :
  (TakeIndex (mkPaths ∅ maxInt) ∅).1 = mkCoverage minInt 1 ∧
  highestUsedColor (TakeIndex (mkPaths ∅ maxInt) ∅).2 = maxInt.
Proof.
  destruct (TakeIndex_colors_used_up (mkPaths ∅ maxInt) ∅ eq_refl) as (Hc & Hh & Hi).
  { intros c Hc. unfold extendable in Hc. by rewrite lookup_empty in Hc. }
  split; [|exact Hh].
  destruct (TakeIndex (mkPaths ∅ maxInt) ∅).1 as [col idx]. cbn in Hc, Hi.
  rewrite Hc, Hi. vm_compute. reflexivity.
Defined.

(** ** The errors of the collaborators *)

Lemma lookupParents_app_error {DB : Type} `{RepoVersionStore DB}
    (store : DB) repoID pre h post acc msg :
  (∀ h', h' ∈ pre -> ∃ p, Lookup store repoID h' = inr (Some p)) ->
  Lookup store repoID h = inl msg ->
  lookupParents store repoID (pre ++ h :: post) acc = inl (ErrStore msg).
Proof.
  revert acc. induction pre as [|h0 pre IH]; intros acc Hpre Hh; simpl.
  - by rewrite Hh.
  - destruct (Hpre h0) as [p ->]; [left|]. apply IH; [|done].
    intros h' Hin. apply Hpre. by right.
Qed.

Lemma seedRoots_app_error git pre r post b :
  (∀ r', r' ∈ pre -> is_Some (CommitObject git r')) ->
  CommitObject git r = None ->
  seedRoots git (pre ++ r :: post) b = inl (ErrCommitObject r).
Proof.
  revert b. induction pre as [|r0 pre IH]; intros b Hpre Hr; simpl.
  - by rewrite Hr.
  - destruct (Hpre r0) as [c ->]; [left|]. apply IH; [|done].
    intros r' Hin. apply Hpre. by right.
Qed.

Lemma addReadyChildren_app_error git processed pre ch post b :
  (∀ x, x ∈ pre -> x ∈ processed ∨ is_Some (CommitObject git x)) ->
  ch ∉ processed ->
  CommitObject git ch = None ->
  addReadyChildren git processed (pre ++ ch :: post) b = inl (ErrCommitObject ch).
Proof.
  revert b. induction pre as [|x pre IH]; intros b Hpre Hch Hobj; simpl.
  - by rewrite bool_decide_eq_false_2, Hobj.
  - assert (Htail : ∀ b0, addReadyChildren git processed (pre ++ ch :: post) b0
                          = inl (ErrCommitObject ch)).
    { intros b0. apply IH; [|done|done]. intros y Hy. apply Hpre. by right. }
    case_bool_decide as Hx; [apply Htail|].
    destruct (Hpre x) as [Hp|[c ->]]; [by left|done|].
    destruct (chParentsProcessed processed (ParentHashes c)); apply Htail.
Qed.

Lemma Clone_at_turn {DB : Type} `{RepoVersionStore DB}
    (git : GitRepo) (repoID : Z) (store : DB) (n fuel : nat) (st : LoopState DB) :
  Clone_stands_at git repoID store n st ->
  Clone (n + fuel) git repoID store =
  let '(out, st') := run_loop fuel git (buildGraph (Log git)).1 repoID st in
  (out, db st', finalized st').
Proof.
  intros (b & Hroots & Hseed & Hturns).
  unfold Clone. destruct (buildGraph (Log git)) as [children roots].
  cbn [fst snd] in *. rewrite decide_False by (by destruct roots).
  by rewrite Hseed, (run_loop_turns _ _ _ _ _ _ _ Hturns).
Qed.

Lemma last_notEmpty b c : last (stack b) = Some c -> notEmpty b = true.
Proof.
  intros Hlast. unfold notEmpty. apply bool_decide_eq_true.
  destruct (stack b); [done|simpl; lia].
Qed.

(** X10. When the loop of [Clone] pops a commit and the lookup of one of
    its parents returns an error (the parents before it were found),
    [Clone] returns that error at once: the store and the calls of
    [CreateIfNotExists] are those made before the commit was popped. *)
Theorem Clone_lookup_error {DB : Type} `{RepoVersionStore DB}
    (git : GitRepo) (repoID : Z) (store : DB) (n fuel : nat) (st : LoopState DB)
    (c : Commit) (pre post : list N) (h : N) (msg : string) :
  Clone_stands_at git repoID store n st ->
  last (stack (toBeProcessed st)) = Some c ->
  ParentHashes c = pre ++ h :: post ->
  (∀ h', h' ∈ pre -> ∃ p, Lookup (db st) repoID h' = inr (Some p)) ->
  Lookup (db st) repoID h = inl msg ->
  Clone (n + S fuel) git repoID store
  = (Returned (Some (ErrStore msg)), db st, finalized st).
Proof.
  intros Hat Hlast Hparents Hpre Hh.
  rewrite (Clone_at_turn git repoID store n (S fuel) st Hat). cbn [run_loop].
  rewrite (last_notEmpty _ _ Hlast). unfold loop_body, pop.
  rewrite Hlast, Hparents.
  by rewrite (lookupParents_app_error _ _ _ _ _ _ _ Hpre Hh).
Qed.

(** The statement holds of a root and its child over a store that cannot
    be read. *)
Lemma Clone_lookup_error_witness :
  @Clone unit WriteOnlyStore 5 (repo_of_log [mkCommit 2 [1%N]; mkCommit 1 []]) 7 tt
  = (Returned (Some (ErrStore "permission denied")), tt,
     [mkFinalization (mkRepoVersion 7 1 (mkCoverage 1 1) {[1 := 1]}) []]).
Proof.
  pose (git := repo_of_log [mkCommit 2 [1%N]; mkCommit 1 []]).
  pose (st := @mkLoopState unit (mkBag [mkCommit 2 [1%N]]) {[1%N]}
                (mkPaths {[1 := 1]} 1) tt
                [mkFinalization (mkRepoVersion 7 1 (mkCoverage 1 1) {[1 := 1]}) []]).
  assert (Hat : @Clone_stands_at unit WriteOnlyStore git 7 tt 1 st).
  { exists (mkBag [mkCommit 1 []]). split; [by vm_compute|]. split; [by vm_compute|].
    eapply turns_S; [by vm_compute|by vm_compute|]. apply turns_O. }
  apply (@Clone_lookup_error unit WriteOnlyStore git 7 tt 1 3 st
           (mkCommit 2 [1%N]) [] [] 1%N "permission denied" Hat).
  - reflexivity.
  - reflexivity.
  - intros h' Hin. by apply elem_of_nil in Hin.
  - reflexivity.
Defined.

(** X11. When [CreateIfNotExists] returns an error for the version of the
    commit popped, [Clone] returns that error at once, after this one call
    and with the store as the call left it: no child of the commit is
    looked at and no further turn is made. *)
Theorem Clone_create_error {DB : Type} `{RepoVersionStore DB}
    (git : GitRepo) (repoID : Z) (store : DB) (n fuel : nat) (st : LoopState DB)
    (c : Commit) (parents : list RepoVersion) (db' : DB) (msg : string) :
  Clone_stands_at git repoID store n st ->
  last (stack (toBeProcessed st)) = Some c ->
  lookupParents (db st) repoID (ParentHashes c) [] = inr parents ->
  CreateIfNotExists (db st) (makeVersion repoID c (paths st) parents).1
  = (db', Some msg) ->
  Clone (n + S fuel) git repoID store
  = (Returned (Some (ErrStore msg)), db',
     finalized st ++ [mkFinalization (makeVersion repoID c (paths st) parents).1 parents]).
Proof.
  intros Hat Hlast Hlook Hcreate.
  rewrite (Clone_at_turn git repoID store n (S fuel) st Hat). cbn [run_loop].
  rewrite (last_notEmpty _ _ Hlast). unfold loop_body, pop.
  rewrite Hlast, Hlook.
  destruct (makeVersion repoID c (paths st) parents) as [v p'].
  cbn [fst] in *. by rewrite Hcreate.
Qed.

(** The statement holds of a root over a store that cannot be written. *)
Lemma Clone_create_error_witness :
  @Clone unit ReadOnlyStore 5 (repo_of_log [mkCommit 2 [1%N]; mkCommit 1 []]) 7 tt
  = (Returned (Some (ErrStore "read-only transaction")), tt,
     [mkFinalization (mkRepoVersion 7 1 (mkCoverage 1 1) {[1 := 1]}) []]).
Proof.
  pose (git := repo_of_log [mkCommit 2 [1%N]; mkCommit 1 []]).
  pose (st := @initialState unit (mkBag [mkCommit 1 []]) tt).
  assert (Hat : @Clone_stands_at unit ReadOnlyStore git 7 tt 0 st).
  { exists (mkBag [mkCommit 1 []]). split; [by vm_compute|]. split; [by vm_compute|].
    apply turns_O. }
  apply (@Clone_create_error unit ReadOnlyStore git 7 tt 0 4 st
           (mkCommit 1 []) [] tt "read-only transaction" Hat).
  - reflexivity.
  - reflexivity.
  - reflexivity.
Defined.

(** X12. When [gitRepo.CommitObject] fails for a root of the log (and
    succeeded for the roots before it), [Clone] returns that error before
    the loop starts: the store is as it was and [CreateIfNotExists] was
    not called. *)
Theorem Clone_root_object_missing {DB : Type} `{RepoVersionStore DB}
    (fuel : nat) (git : GitRepo) (repoID : Z) (store : DB)
    (pre post : list Commit) (r : Commit) :
  filter is_root (Log git) = pre ++ r :: post ->
  (∀ c, c ∈ pre -> is_Some (CommitObject git (Hash c))) ->
  CommitObject git (Hash r) = None ->
  Clone fuel git repoID store
  = (Returned (Some (ErrCommitObject (Hash r))), store, []).
Proof.
  intros Hroots Hpre Hr. unfold Clone.
  pose proof (buildGraph_roots (Log git)) as Hg.
  destruct (buildGraph (Log git)) as [children roots]. cbn [snd] in Hg.
  rewrite Hroots, fmap_app, fmap_cons in Hg. subst roots.
  rewrite decide_False.
  2: { rewrite length_app. cbn. lia. }
  rewrite seedRoots_app_error; [done| |done].
  intros r' (c & -> & Hc)%list_elem_of_fmap. by apply Hpre.
Qed.

(** The statement holds of a repository that yields one root and has no
    object for it. *)
Lemma Clone_root_object_missing_witness :
  @Clone (list RepoVersion) TableStore 5
         (mkGitRepo [mkCommit 1 []] (fun _ => None)) 7 []
  = (Returned (Some (ErrCommitObject 1)), [], []).
Proof.
  apply (@Clone_root_object_missing (list RepoVersion) TableStore 5
           (mkGitRepo [mkCommit 1 []] (fun _ => None)) 7 [] [] [] (mkCommit 1 [])).
  - reflexivity.
  - intros c Hc. by apply elem_of_nil in Hc.
  - reflexivity.
Defined.

(** X13. When [gitRepo.CommitObject] fails for a child of the commit
    popped, a child that is not processed yet, while the children listed
    before it were processed or have an object, [Clone] returns that
    error, and it does so after the version of the commit popped was
    passed to [CreateIfNotExists]: the store keeps that version. *)
Theorem Clone_child_object_missing {DB : Type} `{RepoVersionStore DB}
    (git : GitRepo) (repoID : Z) (store : DB) (n fuel : nat) (st : LoopState DB)
    (c : Commit) (parents : list RepoVersion) (db' : DB)
    (pre post : list N) (ch : N) :
  Clone_stands_at git repoID store n st ->
  last (stack (toBeProcessed st)) = Some c ->
  lookupParents (db st) repoID (ParentHashes c) [] = inr parents ->
  CreateIfNotExists (db st) (makeVersion repoID c (paths st) parents).1
  = (db', None) ->
  children_of (buildGraph (Log git)).1 (Hash c) = pre ++ ch :: post ->
  (∀ x, x ∈ pre ->
        x ∈ {[Hash c]} ∪ processed st ∨ is_Some (CommitObject git x)) ->
  ch ∉ {[Hash c]} ∪ processed st ->
  CommitObject git ch = None ->
  Clone (n + S fuel) git repoID store
  = (Returned (Some (ErrCommitObject ch)), db',
     finalized st ++ [mkFinalization (makeVersion repoID c (paths st) parents).1 parents]).
Proof.
  intros Hat Hlast Hlook Hcreate Hchildren Hpre Hch Hobj.
  rewrite (Clone_at_turn git repoID store n (S fuel) st Hat). cbn [run_loop].
  rewrite (last_notEmpty _ _ Hlast). unfold loop_body, pop.
  rewrite Hlast, Hlook.
  destruct (makeVersion repoID c (paths st) parents) as [v p'].
  cbn [fst] in *. rewrite Hcreate, Hchildren.
  by rewrite (addReadyChildren_app_error _ _ _ _ _ _ Hpre Hch Hobj).
Qed.

(** The statement holds of a repository that yields a root and its child
    and has no object for the child. *)
Lemma Clone_child_object_missing_witness :
  let git := mkGitRepo [mkCommit 2 [1%N]; mkCommit 1 []]
               (fun h => if decide (h = 1%N) then Some (mkCommit 1 []) else None) in
  @Clone (list RepoVersion) TableStore 5 git 7 []
  = (Returned (Some (ErrCommitObject 2)),
     [mkRepoVersion 7 1 (mkCoverage 1 1) {[1 := 1]}],
     [mkFinalization (mkRepoVersion 7 1 (mkCoverage 1 1) {[1 := 1]}) []]).
Proof.
  intros git.
  pose (st := @initialState (list RepoVersion) (mkBag [mkCommit 1 []]) []).
  assert (Hat : @Clone_stands_at (list RepoVersion) TableStore git 7 [] 0 st).
  { exists (mkBag [mkCommit 1 []]). split; [by vm_compute|]. split; [by vm_compute|].
    apply turns_O. }
  apply (@Clone_child_object_missing (list RepoVersion) TableStore git 7 [] 0 4 st
           (mkCommit 1 []) [] [mkRepoVersion 7 1 (mkCoverage 1 1) {[1 := 1]}]
           [] [] 2%N Hat).
  - reflexivity.
  - reflexivity.
  - reflexivity.
  - reflexivity.
  - intros x Hx. by apply elem_of_nil in Hx.
  - apply (bool_decide_unpack _). vm_compute. exact I.
  - reflexivity.
Defined.

(** ** The coordinates of a run *)

Lemma makeVersion_alloc n repoID c p parents calls :
  0 <= n < maxInt ->
  paths_bounded n p ->
  alloc_inv p calls ->
  let mv := makeVersion repoID c p parents in
  alloc_inv mv.2 (calls ++ [mkFinalization mv.1 parents]).
Proof.
  intros Hn Hb (Hnd & Hiff & Hfull) mv.
  destruct (makeVersion_fields repoID c p parents) as (_ & _ & Hcov & _ & Hp').
  fold mv in Hcov, Hp'.
  set (agg := aggregateReachability parents) in *.
  assert (Hwf : paths_wf p) by (eapply paths_bounded_mono; [|exact Hb]; lia).
  assert (Hpos : ∀ k i, agg !! k = Some i -> 1 <= i)
    by (intros k i; apply aggregateReachability_pos).
  pose proof (TakeIndex_cases p agg Hwf Hpos) as Hcases.
  destruct (TakeIndex_state p agg) as (Htop' & Hhuc' & _).
  cbv zeta in Hcases. rewrite <- Hp' in Htop', Hhuc'.
  set (cov := (TakeIndex p agg).1) in *.
  set (c0 := PathColor cov) in *. set (idx := PathIndex cov) in *.
  destruct (paths_bounded_get n p c0 Hb) as (Hget & Hin).
  assert (Hnew : idx = go_get (topIndices p) c0 + 1 ∧
                 (1 <= c0 <= highestUsedColor p ∨
                  (c0 = highestUsedColor p + 1 ∧ go_get (topIndices p) c0 = 0))).
  { destruct Hcases as [(He & Hi)|(_ & Hc & Hi & Hz)].
    - unfold extendable in He. pose proof (Hpos _ _ He) as Hge.
      specialize (Hin ltac:(lia)). split; [done|]. by left.
    - split; [lia|]. by right. }
  destruct Hnew as [Hidx Hc0]. destruct Hb as [Hhuc _].
  assert (Hget' : ∀ k, go_get (topIndices mv.2) k
                       = if decide (c0 = k) then idx else go_get (topIndices p) k).
  { intros k. rewrite Htop'. destruct (decide (c0 = k)) as [<-|Hne].
    - by rewrite go_get_insert_eq.
    - by rewrite go_get_insert_ne. }
  assert (Hcoord : coordinate (mkFinalization mv.1 parents) = (c0, idx)).
  { unfold coordinate. cbn [fin_version]. by rewrite Hcov. }
  unfold alloc_inv. rewrite fmap_app. cbn [fmap list_fmap]. rewrite Hcoord.
  split; [|split].
  - apply NoDup_app. split; [done|]. split; [|apply NoDup_singleton].
    intros x Hx ->%list_elem_of_singleton. apply Hiff in Hx. lia.
  - intros k i. rewrite elem_of_app, list_elem_of_singleton, Hiff, Hhuc', Hget'.
    destruct (decide (c0 = k)) as [<-|Hne].
    + split.
      * intros [?|[= ->]]; lia.
      * intros [Hk Hi]. destruct (decide (i = idx)) as [->|Hni]; [by right|].
        left. lia.
    + split.
      * intros [?|[= -> _]]; [lia|done].
      * intros [Hk Hi]. left. lia.
  - intros k. rewrite Hhuc', Hget'. intros Hk.
    destruct (decide (c0 = k)) as [<-|Hne]; [lia|]. apply Hfull. lia.
Qed.

Section LoopCoordinates.

Context {DB : Type} `{Store : RepoVersionStore DB}.
Variable git : GitRepo.
Variable children : gmap N (list N).
Variable repoID : Z.

(** A turn makes no call and leaves the allocator alone, or makes one call
    with the version and the allocator state of [makeVersion]. *)
Lemma loop_body_call st st' err :
  loop_body git children repoID st = (st', err) ->
  (finalized st' = finalized st ∧ paths st' = paths st) ∨
  ∃ c parents,
    finalized st' =
    finalized st ++ [mkFinalization (makeVersion repoID c (paths st) parents).1 parents] ∧
    paths st' = (makeVersion repoID c (paths st) parents).2.
Proof.
  unfold loop_body. destruct (pop (toBeProcessed st)) as [[c b]|];
    [|intros [= <- _]; by left].
  destruct (lookupParents (db st) repoID (ParentHashes c) []) as [e'|parents].
  { intros [= <- _]. by left. }
  intros Hbody. right. exists c, parents.
  destruct (makeVersion repoID c (paths st) parents) as [v p'].
  destruct (CreateIfNotExists (db st) v) as [db' [e'|]];
    [by injection Hbody as <- _|].
  destruct (addReadyChildren git _ _ b) as [e'|b']; by injection Hbody as <- _.
Qed.

Lemma loop_body_alloc n st st' err :
  0 <= n < maxInt ->
  paths_bounded n (paths st) ->
  alloc_inv (paths st) (finalized st) ->
  loop_body git children repoID st = (st', err) ->
  alloc_inv (paths st') (finalized st').
Proof.
  intros Hn Hb Hinv Hbody.
  apply loop_body_call in Hbody as [[-> ->]|(c & parents & -> & ->)]; [done|].
  by apply (makeVersion_alloc n).
Qed.

Lemma run_loop_alloc fuel n st out st' :
  0 <= n -> n + Z.of_nat fuel <= maxInt ->
  paths_bounded n (paths st) ->
  alloc_inv (paths st) (finalized st) ->
  run_loop fuel git children repoID st = (out, st') ->
  alloc_inv (paths st') (finalized st').
Proof.
  revert n st. induction fuel as [|fuel IH]; intros n st Hn Hfuel Hb Hinv;
    cbn [run_loop].
  { by intros [= _ <-]. }
  destruct (notEmpty (toBeProcessed st)); [|by intros [= _ <-]].
  destruct (loop_body git children repoID st) as [st1 err] eqn:Hbody.
  assert (Hinv1 : alloc_inv (paths st1) (finalized st1)).
  { apply (loop_body_alloc n st st1 err); [lia|done|done|done]. }
  destruct err as [e|]; [by intros [= _ <-]|].
  apply (IH (n + 1)); [lia|lia| |done].
  apply (loop_body_paths_bounded git children repoID n st st1 None); [lia|done|done].
Qed.

Lemma turns_alloc n st st' k :
  turns git children repoID n st st' ->
  0 <= k -> k + Z.of_nat n <= maxInt ->
  paths_bounded k (paths st) ->
  alloc_inv (paths st) (finalized st) ->
  alloc_inv (paths st') (finalized st').
Proof.
  intros Hturns. revert k.
  induction Hturns as [st|n st st1 st2 _ Hbody _ IH]; intros k Hk Hle Hb Hinv;
    [done|].
  apply (IH (k + 1)); [lia|lia| |].
  - apply (loop_body_paths_bounded git children repoID k st st1 None);
      [lia|done|done].
  - apply (loop_body_alloc k st st1 None); [lia|done|done|done].
Qed.

End LoopCoordinates.

Lemma Clone_alloc {DB : Type} `{RepoVersionStore DB}
    (fuel : nat) (git : GitRepo) (repoID : Z) (store : DB) :
  Z.of_nat fuel <= maxInt ->
  ∃ p, alloc_inv p (Clone fuel git repoID store).2.
Proof.
  intros Hfuel.
  assert (Hinit : alloc_inv (mkPaths ∅ 0) []).
  { split; [constructor|]. split.
    - intros c i. cbn. split; [intros Hin; by apply elem_of_nil in Hin|lia].
    - cbn. lia. }
  unfold Clone. destruct (buildGraph (Log git)) as [children roots].
  destruct (decide (length roots = 0%nat)); [by exists (mkPaths ∅ 0)|].
  destruct (seedRoots git roots (mkBag [])) as [e|b]; [by exists (mkPaths ∅ 0)|].
  destruct (run_loop fuel git children repoID (initialState b store))
    as [out st] eqn:Hrun.
  exists (paths st). cbn [snd].
  apply (run_loop_alloc git children repoID fuel 0 (initialState b store) out st);
    [lia|lia| |done|done].
  split; [cbn; lia|]. intros c i Hi. cbn in Hi. by apply lookup_empty_Some in Hi.
Qed.

(** X14. Between the turns of any run of [Clone], whatever the store is,
    holds and returns, [n] turns in with [n] at most [maxInt]: the
    allocator state is bounded by [n] ([highestUsedColor] and every top
    index are at most [n], and only colours from 1 to [highestUsedColor]
    have a top index), and it agrees with the calls made: the coordinates
    of the versions passed to [CreateIfNotExists] are pairwise distinct and
    are exactly the places [(c, i)] with [c] from 1 to [highestUsedColor]
    and [i] from 1 to the top index of [c], and each of these colours has a
    top index of at least 1. *)
Theorem Clone_allocator_tracks_calls {DB : Type} `{RepoVersionStore DB}
    (git : GitRepo) (repoID : Z) (store : DB) (n : nat) (st : LoopState DB) :
  Clone_stands_at git repoID store n st ->
  Z.of_nat n <= maxInt ->
  paths_bounded (Z.of_nat n) (paths st) ∧ alloc_inv (paths st) (finalized st).
Proof.
  intros (b & _ & _ & Hturns) Hn.
  assert (Hb0 : paths_bounded 0 (paths (initialState b store))).
  { split; [cbn; lia|]. intros c i Hi. cbn in Hi. by apply lookup_empty_Some in Hi. }
  split.
  - by apply (turns_paths_bounded git (buildGraph (Log git)).1 repoID n _ st 0 Hturns).
  - apply (turns_alloc git (buildGraph (Log git)).1 repoID n _ st 0 Hturns);
      [lia|lia|done|].
    split; [constructor|]. split.
    + intros c i. cbn. split; [intros Hin; by apply elem_of_nil in Hin|lia].
    + cbn. lia.
Qed.

(** The statement holds of a root and its child over the empty table, one
    turn in. *)
Lemma Clone_allocator_tracks_calls_witness :
  let git := repo_of_log [mkCommit 2 [1%N]; mkCommit 1 []] in
  let st := @mkLoopState (list RepoVersion) (mkBag [mkCommit 2 [1%N]]) {[1%N]}
              (mkPaths {[1 := 1]} 1)
              [mkRepoVersion 7 1 (mkCoverage 1 1) {[1 := 1]}]
              [mkFinalization (mkRepoVersion 7 1 (mkCoverage 1 1) {[1 := 1]}) []] in
  Clone_stands_at git 7 [] 1 st ∧
  paths_bounded 1 (paths st) ∧ alloc_inv (paths st) (finalized st).
Proof.
  intros git st.
  assert (Hat : Clone_stands_at git 7 [] 1 st).
  { exists (mkBag [mkCommit 1 []]). split; [by vm_compute|]. split; [by vm_compute|].
    eapply turns_S; [by vm_compute|by vm_compute|]. apply turns_O. }
  split; [exact Hat|].
  apply (Clone_allocator_tracks_calls git 7 [] 1 st Hat).
  rewrite maxInt_val. cbn. lia.
Defined.

(** X15. No two versions that one run of [Clone] passes to
    [CreateIfNotExists] have the same coordinate (colour and index),
    whatever the repository and the store are and however the run ends, as
    long as the run makes at most [maxInt] turns. *)
Theorem Clone_coordinates_distinct {DB : Type} `{RepoVersionStore DB}
    (fuel : nat) (git : GitRepo) (repoID : Z) (store : DB) :
  Z.of_nat fuel <= maxInt ->
  NoDup (coordinate <$> (Clone fuel git repoID store).2).
Proof.
  intros Hfuel. destruct (Clone_alloc fuel git repoID store Hfuel) as (p & Hnd & _).
  exact Hnd.
Qed.

(** The statement holds of the diamond ingested into the empty table. *)
Lemma Clone_coordinates_distinct_witness :
  NoDup (coordinate <$> (Clone 5 (repo_of_log diamond_log) 7 ([] : list RepoVersion)).2).
Proof.
  apply (Clone_coordinates_distinct 5 (repo_of_log diamond_log) 7 ([] : list RepoVersion)).
  rewrite maxInt_val. cbn. lia.
Defined.

(** X16. The coordinates that one run of [Clone] hands out have no gaps:
    when a version got the coordinate [(c, i)], then [c] and [i] are at
    least 1, every colour from 1 to [c] was started (some version got its
    index 1), and every index from 1 to [i] of colour [c] was handed out
    in this run. *)
Theorem Clone_coordinates_gap_free {DB : Type} `{RepoVersionStore DB}
    (fuel : nat) (git : GitRepo) (repoID : Z) (store : DB) (c i : Z) :
  Z.of_nat fuel <= maxInt ->
  let coords := coordinate <$> (Clone fuel git repoID store).2 in
  (c, i) ∈ coords ->
  1 <= c ∧ 1 <= i ∧
  (∀ c', 1 <= c' <= c -> (c', 1) ∈ coords) ∧
  (∀ i', 1 <= i' <= i -> (c, i') ∈ coords).
Proof.
  intros Hfuel coords Hin.
  destruct (Clone_alloc fuel git repoID store Hfuel) as (p & _ & Hiff & Hfull).
  fold coords in Hiff. destruct (proj1 (Hiff c i) Hin) as [Hc Hi].
  split; [lia|]. split; [lia|]. split.
  - intros c' Hc'. apply Hiff. split; [lia|]. split; [lia|]. apply Hfull. lia.
  - intros i' Hi'. apply Hiff. lia.
Qed.

(** The statement holds of the diamond ingested into the empty table: the
    coordinate (1, 3) was handed out, and so was (1, 2). *)
Lemma Clone_coordinates_gap_free_witness :
  let coords :=
    coordinate <$> (Clone 5 (repo_of_log diamond_log) 7 ([] : list RepoVersion)).2 in
  (1, 3) ∈ coords ∧ (1, 2) ∈ coords.
Proof.
  intros coords.
  assert (Hin : (1, 3) ∈ coords).
  { apply (bool_decide_unpack _). vm_compute. exact I. }
  split; [exact Hin|].
  destruct (Clone_coordinates_gap_free 5 (repo_of_log diamond_log) 7
              ([] : list RepoVersion) 1 3
              ltac:(rewrite maxInt_val; cbn; lia) Hin) as (_ & _ & _ & Hidx).
  apply Hidx. lia.
Defined.

(** ** The schedule of the loop *)

Lemma chParentsProcessed_true processed phs :
  chParentsProcessed processed phs = true ↔ ∀ ph, ph ∈ phs -> ph ∈ processed.
Proof.
  unfold chParentsProcessed. induction phs as [|ph phs IH]; simpl.
  - split; [|done]. intros _ ph Hph. by apply elem_of_nil in Hph.
  - rewrite andb_true_iff, IH, bool_decide_eq_true. split.
    + intros [H1 H2] x [->|Hx]%elem_of_cons; auto.
    + intros Hall. split; [apply Hall; by left|].
      intros x Hx. apply Hall. by right.
Qed.

Lemma addReadyChildren_ready git processed chs b b' :
  addReadyChildren git processed chs b = inr b' ->
  stack b' = stack b ++ ready_children git processed chs.
Proof.
  revert b. induction chs as [|ch chs IH]; intros b; simpl.
  { intros [= <-]. by rewrite app_nil_r. }
  case_bool_decide; [apply IH|].
  destruct (CommitObject git ch) as [cc|]; [|done].
  destruct (chParentsProcessed processed (ParentHashes cc)); [|apply IH].
  intros Hadd. rewrite (IH _ Hadd). simpl. by rewrite <- app_assoc.
Qed.

Lemma ready_children_elem git processed chs cc :
  cc ∈ ready_children git processed chs ↔
  ∃ ch, ch ∈ chs ∧ (ch ∉ processed) ∧ CommitObject git ch = Some cc ∧
        ∀ ph, ph ∈ ParentHashes cc -> ph ∈ processed.
Proof.
  induction chs as [|ch chs IH]; simpl.
  { split; [intros Hin; by apply elem_of_nil in Hin|].
    intros (ch & Hin & _). by apply elem_of_nil in Hin. }
  assert (Hskip :
    (ch ∈ processed ∨ CommitObject git ch = None ∨
     ∃ c0, CommitObject git ch = Some c0 ∧
           chParentsProcessed processed (ParentHashes c0) = false) ->
    (∃ ch0, ch0 ∈ ch :: chs ∧ (ch0 ∉ processed) ∧ CommitObject git ch0 = Some cc ∧
            ∀ ph, ph ∈ ParentHashes cc -> ph ∈ processed) ↔
    (∃ ch0, ch0 ∈ chs ∧ (ch0 ∉ processed) ∧ CommitObject git ch0 = Some cc ∧
            ∀ ph, ph ∈ ParentHashes cc -> ph ∈ processed)).
  { intros Hno. split.
    - intros (ch0 & Hin & Hnp & Hco & Hall).
      apply elem_of_cons in Hin as [->|Hin]; [|by exists ch0].
      destruct Hno as [Hp|[Hn|(c0 & Hc0 & Hf)]]; [done|congruence|].
      rewrite Hco in Hc0. injection Hc0 as <-.
      apply chParentsProcessed_true in Hall. congruence.
    - intros (ch0 & Hin & Hrest). exists ch0. split; [by right|done]. }
  case_bool_decide as Hp; [rewrite IH; symmetry; apply Hskip; by left|].
  destruct (CommitObject git ch) as [c0|] eqn:Hco;
    [|rewrite IH; symmetry; apply Hskip; right; by left].
  destruct (chParentsProcessed processed (ParentHashes c0)) eqn:Hcp;
    [|rewrite IH; symmetry; apply Hskip; right; right; by exists c0].
  rewrite elem_of_cons, IH. split.
  - intros [->|(ch0 & Hin & Hrest)].
    + exists ch. split; [by left|]. split; [done|]. split; [done|].
      by apply chParentsProcessed_true.
    + exists ch0. split; [by right|done].
  - intros (ch0 & Hin & Hnp & Hco' & Hall).
    apply elem_of_cons in Hin as [->|Hin].
    + left. congruence.
    + right. by exists ch0.
Qed.

Lemma ready_children_NoDup git processed chs :
  (∀ ch cc, ch ∈ chs -> CommitObject git ch = Some cc -> Hash cc = ch) ->
  NoDup chs -> NoDup (Hash <$> ready_children git processed chs).
Proof.
  intros Hhash Hnd. induction Hnd as [|ch chs Hnin Hnd IH]; simpl; [constructor|].
  assert (IH' : NoDup (Hash <$> ready_children git processed chs)).
  { apply IH. intros ch' cc' Hin. apply Hhash. by right. }
  case_bool_decide; [done|].
  destruct (CommitObject git ch) as [cc|] eqn:Hco; [|done].
  destruct (chParentsProcessed processed (ParentHashes cc)); [|done].
  rewrite fmap_cons. constructor; [|done].
  intros (c1 & Heq & Hc1)%list_elem_of_fmap.
  apply ready_children_elem in Hc1 as (ch1 & Hin1 & _ & Hco1 & _).
  apply Hhash in Hco; [|by left]. apply Hhash in Hco1; [|by right]. congruence.
Qed.

Lemma repo_of_log_objects log :
  NoDup (Hash <$> log) -> log_objects (repo_of_log log).
Proof. intros Hnd c Hc. by apply find_by_hash. Qed.

Lemma hash_inj git c1 c2 :
  log_objects git -> c1 ∈ Log git -> c2 ∈ Log git -> Hash c1 = Hash c2 -> c1 = c2.
Proof.
  intros Hobj H1 H2 Heq. pose proof (Hobj c1 H1) as F1.
  rewrite Heq, (Hobj c2 H2) in F1. congruence.
Qed.

Lemma seedRoots_log git cs b :
  log_objects git -> (∀ c, c ∈ cs -> c ∈ Log git) ->
  seedRoots git (Hash <$> cs) b = inr (mkBag (stack b ++ cs)).
Proof.
  intros Hobj. revert b. induction cs as [|c cs IH]; intros b Hin.
  { simpl. rewrite app_nil_r. by destruct b. }
  rewrite fmap_cons. cbn [seedRoots].
  rewrite (Hobj c) by (apply Hin; by left).
  rewrite IH by (intros c' Hc'; apply Hin; by right).
  simpl. by rewrite <- app_assoc.
Qed.

Lemma schedule_ok_length log order :
  schedule_ok log order -> (length order <= length log)%nat.
Proof.
  intros (Hnd & Hsub & _). rewrite <- (length_fmap Hash log).
  apply submseteq_length. by apply NoDup_submseteq.
Qed.

Section Schedule.

Context {DB : Type} `{Store : RepoVersionStore DB}.
Variable git : GitRepo.
Variable repoID : Z.
Hypothesis Hobj : log_objects git.
Hypothesis Hlog : distinct_log (Log git).

Local Abbreviation log := (Log git).
Local Abbreviation lchildren := (buildGraph (Log git)).1.

(** The children of [h] that are ready once the commits [P] are processed:
    the commits of the log that name [h] as a parent, are not processed and
    have all their parents processed. *)
Lemma ready_children_log (P : gset N) h cc :
  cc ∈ ready_children git P (children_of lchildren h) ↔
  cc ∈ log ∧ h ∈ ParentHashes cc ∧ (Hash cc ∉ P) ∧
  ∀ ph, ph ∈ ParentHashes cc -> ph ∈ P.
Proof.
  rewrite ready_children_elem. split.
  - intros (ch & Hch & Hnp & Hco & Hall).
    apply children_elem in Hch as (c1 & Hc1 & <- & Hh).
    rewrite (Hobj c1 Hc1) in Hco. by injection Hco as <-.
  - intros (Hcc & Hh & Hnp & Hall). exists (Hash cc).
    split; [apply children_elem; by exists cc|]. split; [done|].
    split; [|done]. by apply Hobj.
Qed.

Lemma sched_init (store : DB) :
  seedRoots git (buildGraph log).2 (mkBag []) = inr (mkBag (filter is_root log)) ∧
  sched_inv log (initialState (mkBag (filter is_root log)) store).
Proof.
  destruct Hlog as [Hnd Hpar]. split.
  { rewrite buildGraph_roots, seedRoots_log; [done|done|].
    intros c Hc. by apply list_elem_of_filter in Hc as [_ Hc]. }
  unfold sched_inv, schedule_ok, parents_first. cbn.
  split; [intros c Hc; by apply list_elem_of_filter in Hc as [_ Hc]|].
  split.
  { eapply sublist_NoDup; [exact Hnd|]. apply fmap_sublist, sublist_filter. }
  split; [intros c _; apply not_elem_of_empty|].
  split.
  { intros c ph [Hroot _]%list_elem_of_filter Hph.
    apply nil_length_inv in Hroot. rewrite Hroot in Hph.
    by apply elem_of_nil in Hph. }
  split.
  { intros c Hc _ Hall. apply list_elem_of_filter. split; [|done].
    unfold is_root. destruct (ParentHashes c) as [|ph phs]; [done|].
    exfalso. apply (not_elem_of_empty (C:=gset N) ph), Hall. by left. }
  split.
  { intros h. split; [intros Hh; by apply elem_of_nil in Hh|].
    intros Hh. by apply not_elem_of_empty in Hh. }
  split; [constructor|]. split; [intros h Hh; by apply elem_of_nil in Hh|].
  intros i c ph _ Hi. by rewrite lookup_nil in Hi.
Qed.

(** One turn keeps the schedule in shape. *)
Lemma sched_turn st st' err :
  sched_inv log st ->
  notEmpty (toBeProcessed st) = true ->
  loop_body git lchildren repoID st = (st', err) ->
  schedule_ok log (persisted_order (finalized st')) ∧
  (length (finalized st') <= S (length (finalized st)))%nat ∧
  (err = None ->
   sched_inv log st' ∧ length (finalized st') = S (length (finalized st))).
Proof.
  intros (Hin & Hnd & Hfresh & Hpar & Hready & Hmem & Hok) Hne Hbody.
  pose proof Hlog as [Hhashes Hparents].
  destruct (loop_body_inv _ _ _ _ _ _ Hbody Hne) as (c & b & Hpop & Hcase).
  apply pop_Some in Hpop.
  assert (Hc : c ∈ stack (toBeProcessed st)).
  { rewrite Hpop. apply elem_of_app. right. by left. }
  pose proof (Hin c Hc) as Hclog.
  pose proof (Hfresh c Hc) as Hcfresh.
  pose proof (fun ph => Hpar c ph Hc) as Hcpar.
  destruct (lookupParents (db st) repoID (ParentHashes c) []) as [e|parents].
  { destruct Hcase as [-> ->]. cbn. split; [done|]. split; [lia|done]. }
  cbv zeta in Hcase. destruct Hcase as (Hpaths & Hdb & Hfin & Hcase).
  set (order := persisted_order (finalized st)) in *.
  assert (Hord : persisted_order (finalized st') = order ++ [Hash c]).
  { rewrite Hfin. unfold order, persisted_order. rewrite fmap_app. cbn.
    by destruct (makeVersion_fields repoID c (paths st) parents) as (_ & -> & _). }
  assert (Hok' : schedule_ok log (persisted_order (finalized st'))).
  { destruct Hok as (Hnd_o & Hsub & Hpf). rewrite Hord. split; [|split].
    - apply NoDup_app. split; [done|]. split; [|apply NoDup_singleton].
      intros x Hx ->%list_elem_of_singleton. by apply Hcfresh, Hmem.
    - intros h [Hh| ->%list_elem_of_singleton]%elem_of_app; [by apply Hsub|].
      apply list_elem_of_fmap. by exists c.
    - intros i c1 ph Hc1 Hi Hph.
      destruct (decide (i < length order)%nat) as [Hlt|Hge].
      + rewrite lookup_app_l in Hi by done.
        destruct (Hpf i c1 ph Hc1 Hi Hph) as (j & Hj & Hjo).
        exists j. split; [done|]. by apply lookup_app_l_Some.
      + rewrite lookup_app_r in Hi by lia.
        apply list_lookup_singleton_Some in Hi as [_ Heq].
        assert (c1 = c) as -> by (by apply (hash_inj git)).
        apply Hcpar, Hmem, list_elem_of_lookup_1 in Hph as [j Hj].
        exists j. split; [|by apply lookup_app_l_Some].
        apply lookup_lt_Some in Hj. lia. }
  split; [done|]. split; [rewrite Hfin, length_app; cbn; lia|].
  intros ->. split; [|rewrite Hfin, length_app; cbn; lia].
  destruct (CreateIfNotExists (db st) (makeVersion repoID c (paths st) parents).1)
    as [db' [e|]]; cbn [fst snd] in Hcase; [by destruct Hcase|].
  destruct Hcase as (Hproc & Hcase).
  destruct (addReadyChildren git ({[Hash c]} ∪ processed st)
              (children_of lchildren (Hash c)) b) as [e|b'] eqn:Hadd;
    [by destruct Hcase|].
  destruct Hcase as [_ Hbag]. apply addReadyChildren_ready in Hadd.
  unfold sched_inv. rewrite Hbag, Hadd, Hproc. rewrite Hpop in Hin, Hnd, Hfresh, Hpar, Hready.
  set (P' := {[Hash c]} ∪ processed st) in *.
  set (ready := ready_children git P' (children_of lchildren (Hash c))) in *.
  rewrite fmap_app in Hnd. apply NoDup_app in Hnd as (Hnd_b & Hdisj & _).
  assert (Hcb : ∀ c', c' ∈ stack b -> Hash c' ≠ Hash c).
  { intros c' Hc' Heq. apply (Hdisj (Hash c')).
    - apply list_elem_of_fmap. by exists c'.
    - rewrite Heq. cbn. by left. }
  split; [|split; [|split; [|split; [|split; [|split]]]]].
  - intros c' [Hc'|Hc']%elem_of_app.
    + apply Hin, elem_of_app. by left.
    + by apply ready_children_log in Hc' as [Hc' _].
  - rewrite fmap_app. apply NoDup_app. split; [done|]. split.
    + intros x (c1 & -> & Hc1)%list_elem_of_fmap (cc & Heq & Hcc)%list_elem_of_fmap.
      apply ready_children_log in Hcc as (Hcc & Hh & _).
      assert (c1 = cc) as ->.
      { apply (hash_inj git); [done| |done|done]. apply Hin, elem_of_app. by left. }
      apply Hcfresh, (Hpar cc); [|done]. apply elem_of_app. by left.
    + apply ready_children_NoDup; [|by apply children_NoDup].
      intros ch cc (c1 & Hc1 & <- & _)%children_elem Hco.
      rewrite (Hobj c1 Hc1) in Hco. by injection Hco as <-.
  - intros c' [Hc'|Hc']%elem_of_app.
    + intros [Heq%elem_of_singleton|Hp]%elem_of_union.
      * by apply (Hcb c').
      * revert Hp. apply Hfresh, elem_of_app. by left.
    + by apply ready_children_log in Hc' as (_ & _ & Hnp & _).
  - intros c' ph [Hc'|Hc']%elem_of_app Hph.
    + apply elem_of_union. right. apply (Hpar c'); [|done].
      apply elem_of_app. by left.
    + apply ready_children_log in Hc' as (_ & _ & _ & Hall). by apply Hall.
  - intros c1 Hc1 Hnp Hall. apply elem_of_app.
    destruct (decide (Hash c ∈ ParentHashes c1)) as [Hh|Hh].
    { right. by apply ready_children_log. }
    left. assert (Hold : c1 ∈ stack b ++ [c]).
    { apply Hready; [done| |].
      - intros Hp. apply Hnp, elem_of_union. by right.
      - intros ph Hph.
        pose proof (Hall ph Hph) as Hp'.
        apply elem_of_union in Hp' as [Heq%elem_of_singleton|Hp']; [|done].
        by subst ph. }
    apply elem_of_app in Hold as [Hold| ->%list_elem_of_singleton]; [done|].
    exfalso. apply Hnp, elem_of_union. left. by apply elem_of_singleton.
  - intros h. rewrite Hord, elem_of_app, list_elem_of_singleton, Hmem.
    unfold P'. rewrite elem_of_union, elem_of_singleton. tauto.
  - done.
Qed.

Lemma sched_inv_length (st : LoopState DB) :
  sched_inv log st -> (length (finalized st) <= length log)%nat.
Proof.
  intros (_ & _ & _ & _ & _ & _ & Hok). apply schedule_ok_length in Hok.
  unfold persisted_order in Hok. by rewrite length_fmap in Hok.
Qed.

(** The loop returns within as many turns as the log has commits left. *)
Lemma sched_run_returns fuel st :
  sched_inv log st ->
  (length log - length (finalized st) < fuel)%nat ->
  ∃ out st', run_loop fuel git lchildren repoID st = (Returned out, st').
Proof.
  revert st. induction fuel as [|fuel IH]; intros st Hinv Hfuel; [lia|].
  cbn [run_loop]. destruct (notEmpty (toBeProcessed st)) eqn:Hne; [|by eexists _, _].
  destruct (loop_body git lchildren repoID st) as [st1 [e|]] eqn:Hbody;
    [by eexists _, _|].
  destruct (sched_turn st st1 None Hinv Hne Hbody) as (_ & _ & Hnext).
  destruct (Hnext eq_refl) as [Hinv1 Hlen]. apply IH; [done|].
  apply sched_inv_length in Hinv1. lia.
Qed.

(** The calls of a run keep to the schedule, however the run ends; a run
    that returns [nil] leaves the bag empty. *)
Lemma sched_run fuel st out st' :
  sched_inv log st ->
  run_loop fuel git lchildren repoID st = (out, st') ->
  schedule_ok log (persisted_order (finalized st')) ∧
  (out = Returned None -> sched_inv log st' ∧ stack (toBeProcessed st') = []).
Proof.
  revert st. induction fuel as [|fuel IH]; intros st Hinv; cbn [run_loop].
  { intros [= <- <-]. split; [apply Hinv|done]. }
  destruct (notEmpty (toBeProcessed st)) eqn:Hne.
  2: { intros [= <- <-]. split; [apply Hinv|]. intros _. split; [done|].
       unfold notEmpty in Hne. apply bool_decide_eq_false in Hne.
       destruct (stack (toBeProcessed st)); [done|]. cbn in Hne. lia. }
  destruct (loop_body git lchildren repoID st) as [st1 err] eqn:Hbody.
  destruct (sched_turn st st1 err Hinv Hne Hbody) as (Hok & _ & Hnext).
  destruct err as [e|]; [by intros [= <- <-]|].
  destruct (Hnext eq_refl) as [Hinv1 _]. by apply IH.
Qed.

(** When the log holds the parents of its commits and has no cycle, an
    empty bag means that every commit is processed. *)
Lemma sched_drained rank (st : LoopState DB) :
  closed_log log -> ranked_log rank log ->
  sched_inv log st -> stack (toBeProcessed st) = [] ->
  ∀ c, c ∈ log -> Hash c ∈ processed st.
Proof.
  intros Hclosed Hrank (_ & _ & _ & _ & Hready & _) Hempty.
  assert (Hall : ∀ n c, rank (Hash c) = n -> c ∈ log -> Hash c ∈ processed st).
  { induction n as [n IH] using lt_wf_ind. intros c Hn Hc.
    destruct (decide (Hash c ∈ processed st)) as [|Hnp]; [done|].
    exfalso. assert (Hbag : c ∈ stack (toBeProcessed st)).
    { apply Hready; [done|done|]. intros ph Hph.
      pose proof (Hclosed c ph Hc Hph) as Hcp.
      apply list_elem_of_fmap in Hcp as (cp & -> & Hcp).
      apply (IH (rank (Hash cp))); [|done|done].
      rewrite <- Hn. by apply (Hrank c). }
    rewrite Hempty in Hbag. by apply elem_of_nil in Hbag. }
  intros c. by apply (Hall (rank (Hash c))).
Qed.

(** [Clone] on the repository of a log: no root, or the loop from the
    roots of the log. *)
Lemma Clone_of_log fuel (store : DB) :
  (filter is_root log = [] ∧
   Clone fuel git repoID store = (Returned (Some ErrNoRootCommit), store, [])) ∨
  (filter is_root log ≠ [] ∧
   ∃ out st,
     run_loop fuel git lchildren repoID
              (initialState (mkBag (filter is_root log)) store) = (out, st) ∧
     Clone fuel git repoID store = (out, db st, finalized st)).
Proof.
  destruct (sched_init store) as [Hseed _]. unfold Clone.
  destruct (buildGraph log) as [children roots] eqn:Hg. cbn [fst snd] in *.
  assert (Hroots : roots = Hash <$> filter is_root log).
  { by rewrite <- buildGraph_roots, Hg. }
  destruct (decide (length roots = 0%nat)) as [Hz|Hnz].
  - left. split; [|done]. apply nil_length_inv in Hz. rewrite Hroots in Hz.
    by apply fmap_nil_inv in Hz.
  - right. split; [intros Hnil; apply Hnz; by rewrite Hroots, Hnil|].
    rewrite Hseed.
    destruct (run_loop fuel git children repoID
                (initialState (mkBag (filter is_root log)) store)) as [out st] eqn:Hrun.
    by exists out, st.
Qed.

End Schedule.

(** X17. [Clone] terminates. For a repository that returns for each hash
    of its log the commit the log yielded, and a log of distinct commits,
    the loop returns ([nil] or an error) within as many turns as the log
    has commits, whatever the store does; it calls [CreateIfNotExists] at
    most once per commit of the log. *)
Theorem Clone_returns {DB : Type} `{RepoVersionStore DB}
    (git : GitRepo) (repoID : Z) (store : DB) (k : nat) :
  log_objects git -> distinct_log (Log git) ->
  ∃ out store' calls,
    Clone (length (Log git) + 1 + k) git repoID store
    = (Returned out, store', calls) ∧
    (length calls <= length (Log git))%nat.
Proof.
  intros Hobj Hlog.
  destruct (Clone_of_log git repoID Hobj Hlog (length (Log git) + 1 + k) store)
    as [[_ ->]|(_ & out & st & Hrun & ->)].
  { eexists _, _, _. split; [done|]. cbn. lia. }
  destruct (sched_init git Hobj Hlog store) as [_ Hinv].
  destruct (sched_run_returns git repoID Hobj Hlog (length (Log git) + 1 + k) _ Hinv)
    as (out' & st' & Hrun'); [cbn; lia|].
  rewrite Hrun' in Hrun. injection Hrun as <- <-.
  exists out', (db st'), (finalized st'). split; [done|].
  destruct (sched_run git repoID Hobj Hlog _ _ _ _ Hinv Hrun') as [Hok _].
  apply schedule_ok_length in Hok. unfold persisted_order in Hok.
  by rewrite length_fmap in Hok.
Qed.

(** The statement holds of the diamond ingested into the empty table. *)
Lemma Clone_returns_witness :
  ∃ out store' calls,
    Clone 5 (repo_of_log diamond_log) 7 ([] : list RepoVersion)
    = (Returned out, store', calls) ∧ (length calls <= 4)%nat.
Proof.
  apply (Clone_returns (repo_of_log diamond_log) 7 ([] : list RepoVersion) 0).
  - apply (bool_decide_unpack _). vm_compute. exact I.
  - apply (bool_decide_unpack _). vm_compute. exact I.
Defined.

Lemma Clone_schedule {DB : Type} `{RepoVersionStore DB}
    (git : GitRepo) (repoID : Z) (store : DB) (fuel : nat) :
  log_objects git -> distinct_log (Log git) ->
  schedule_ok (Log git) (persisted_order (Clone fuel git repoID store).2).
Proof.
  intros Hobj Hlog.
  destruct (Clone_of_log git repoID Hobj Hlog fuel store)
    as [[_ ->]|(_ & out & st & Hrun & ->)].
  { cbn. split; [constructor|]. split; [intros h Hh; by apply elem_of_nil in Hh|].
    intros i c ph _ Hi. by rewrite lookup_nil in Hi. }
  destruct (sched_init git Hobj Hlog store) as [_ Hinv].
  by destruct (sched_run git repoID Hobj Hlog _ _ _ _ Hinv Hrun) as [Hok _].
Qed.

(** X18. For a repository that returns for each hash of its log the commit
    the log yielded, and a log of distinct commits (no hash is yielded
    twice and no commit names a parent twice): in one run of [Clone] no
    commit is passed to [CreateIfNotExists] twice, and every commit passed
    is a commit of the log; this holds whatever the store does and however
    the run ends. *)
Theorem Clone_each_commit_once {DB : Type} `{RepoVersionStore DB}
    (git : GitRepo) (repoID : Z) (store : DB) (fuel : nat) :
  log_objects git -> distinct_log (Log git) ->
  let order := persisted_order (Clone fuel git repoID store).2 in
  NoDup order ∧ ∀ h, h ∈ order -> ∃ c, c ∈ Log git ∧ Hash c = h.
Proof.
  intros Hobj Hlog order.
  destruct (Clone_schedule git repoID store fuel Hobj Hlog) as (Hnd & Hsub & _).
  split; [done|]. intros h Hh.
  apply Hsub, list_elem_of_fmap in Hh as (c & -> & Hc). by exists c.
Qed.

(** The statement holds of the diamond ingested into the empty table. *)
Lemma Clone_each_commit_once_witness :
  NoDup (persisted_order (Clone 5 (repo_of_log diamond_log) 7 ([] : list RepoVersion)).2).
Proof.
  apply (Clone_each_commit_once (repo_of_log diamond_log) 7 ([] : list RepoVersion) 5).
  - apply (bool_decide_unpack _). vm_compute. exact I.
  - apply (bool_decide_unpack _). vm_compute. exact I.
Defined.

(** The condition on the parents is needed: a commit that names its parent
    twice stands twice among the children of that parent, is added to the
    bag twice and is passed to [CreateIfNotExists] twice, each time with a
    coordinate of its own. *)
Example duplicate_parent_passed_twice :
  let calls :=
    (Clone 4 (repo_of_log [mkCommit 2 [1%N; 1%N]; mkCommit 1 []]) 7
           ([] : list RepoVersion)).2 in
  ¬ distinct_log [mkCommit 2 [1%N; 1%N]; mkCommit 1 []] ∧
  persisted_order calls = [1; 2; 2]%N ∧
  coordinate <$> calls = [(1, 1); (1, 2); (2, 1)].
Proof.
  intros calls. split; [|split; by vm_compute].
  intros [_ Hpar]. specialize (Hpar (mkCommit 2 [1%N; 1%N]) ltac:(by left)).
  cbn in Hpar. apply NoDup_cons in Hpar as [Hnin _]. apply Hnin. by left.
Qed.

(** X19. Parents first: when a run of [Clone] passes a commit of the log
    to [CreateIfNotExists], it has passed every parent of that commit
    in an earlier call of the same run. *)
Theorem Clone_parents_first {DB : Type} `{RepoVersionStore DB}
    (git : GitRepo) (repoID : Z) (store : DB) (fuel : nat)
    (i : nat) (c : Commit) (ph : N) :
  log_objects git -> distinct_log (Log git) ->
  c ∈ Log git -> ph ∈ ParentHashes c ->
  persisted_order (Clone fuel git repoID store).2 !! i = Some (Hash c) ->
  ∃ j, (j < i)%nat ∧
       persisted_order (Clone fuel git repoID store).2 !! j = Some ph.
Proof.
  intros Hobj Hlog Hc Hph Hi.
  destruct (Clone_schedule git repoID store fuel Hobj Hlog) as (_ & _ & Hpf).
  by apply (Hpf i c ph).
Qed.

(** The statement holds of the diamond: the merge is the call at place 3,
    and its parent B was passed in an earlier call. *)
Lemma Clone_parents_first_witness :
  ∃ j, (j < 3)%nat ∧
       persisted_order (Clone 5 (repo_of_log diamond_log) 7 ([] : list RepoVersion)).2 !! j
       = Some 3%N.
Proof.
  apply (Clone_parents_first (repo_of_log diamond_log) 7 ([] : list RepoVersion)
           5 3 diamond_M 3%N).
  - apply (bool_decide_unpack _). vm_compute. exact I.
  - apply (bool_decide_unpack _). vm_compute. exact I.
  - apply (bool_decide_unpack _). vm_compute. exact I.
  - apply (bool_decide_unpack _). vm_compute. exact I.
  - vm_compute. reflexivity.
Defined.

(** X20. For a repository that returns for each hash of its log the commit
    the log yielded, and a log of distinct commits (no hash is yielded
    twice and no commit names a parent twice): when the log holds the
    parents of all its commits and the history has no cycle, a run of
    [Clone] that returns [nil] has passed every commit of the log to
    [CreateIfNotExists], each exactly once. *)
Theorem Clone_covers_the_log {DB : Type} `{RepoVersionStore DB}
    (git : GitRepo) (repoID : Z) (store store' : DB) (fuel : nat)
    (calls : list Finalization) (rank : N -> nat) :
  log_objects git -> distinct_log (Log git) ->
  closed_log (Log git) -> ranked_log rank (Log git) ->
  Clone fuel git repoID store = (Returned None, store', calls) ->
  persisted_order calls ≡ₚ Hash <$> Log git.
Proof.
  intros Hobj Hlog Hclosed Hrank HClone.
  destruct (Clone_of_log git repoID Hobj Hlog fuel store)
    as [[_ Heq]|(_ & out & st & Hrun & Heq)]; rewrite Heq in HClone; [done|].
  injection HClone as -> <- <-.
  destruct (sched_init git Hobj Hlog store) as [_ Hinv].
  destruct (sched_run git repoID Hobj Hlog _ _ _ _ Hinv Hrun) as [Hok Hend].
  destruct (Hend eq_refl) as [Hinv' Hempty].
  pose proof (sched_drained git rank st Hclosed Hrank Hinv' Hempty) as Hall.
  destruct Hok as (Hnd & Hsub & _). destruct Hinv' as (_ & _ & _ & _ & _ & Hmem & _).
  apply NoDup_Permutation; [done|apply Hlog|].
  intros h. split; [apply Hsub|].
  intros (c & -> & Hc)%list_elem_of_fmap. by apply Hmem, Hall.
Qed.

(** The statement holds of the diamond ingested into the empty table. *)
Lemma Clone_covers_the_log_witness :
  persisted_order diamond_calls ≡ₚ Hash <$> diamond_log.
Proof.
  apply (Clone_covers_the_log (repo_of_log diamond_log) 7 ([] : list RepoVersion)
           diamond_versions 5 diamond_calls N.to_nat).
  - apply (bool_decide_unpack _). vm_compute. exact I.
  - apply (bool_decide_unpack _). vm_compute. exact I.
  - apply (bool_decide_unpack _). vm_compute. exact I.
  - apply (bool_decide_unpack _). vm_compute. exact I.
  - vm_compute. reflexivity.
Defined.

(** ** The schedule over the table store *)


Section TableSchedule.

Variable git : GitRepo.
Variable repoID : Z.
Hypothesis Hobj : log_objects git.
Hypothesis Hlog : distinct_log (Log git).

Local Abbreviation tchildren := (buildGraph (Log git)).1.



End TableSchedule.


